(** * Aspect extraction post-processing: span decoding, bracket balancing,
      detokenisation and capitalisation ([extractor.py])

    A shallow embedding of the class [AspectExtractor] and of the properties
    stated about it.  Python values are modelled as follows.

    - [str] is a sequence of Unicode code points ([list N]); [==] on [str] is
      equality of the sequences, [a in s] for two [str] is the substring test,
      [s.split(c)], [s.startswith(p)] and [''.join(l)] are the functions
      [split], [startswith] and [concat];
    - a [dict] with literal keys is an association list in insertion order,
      [k in d] is [dict_in], [d[k]] and [d.get(k, default)] are [dict_get] and
      [dict_get_default];
    - a [list] is a [list]; [l.insert(0, x)] is [x :: l], [l.append(x)] is
      [l ++ [x]], [l.remove(x)] removes the first occurrence;
    - an exception ([IndexError]) is the result [None]. *)

From Stdlib Require Import String Ascii.
From Stdlib Require Import List Arith NArith Bool Lia Permutation Sorted.
Import ListNotations.
Open Scope N_scope.

(** ** Python strings *)

Definition char := N.
Definition str := list char.

(** String literals of the source are UTF-8 text; [u] decodes the bytes of a
    literal into its code points. *)
Fixpoint utf8 (fuel : nat) (bs : list N) : str :=
  match fuel with
  | O => []
  | S fuel' =>
    match bs with
    | [] => []
    | b :: rest =>
      if b <? 128 then b :: utf8 fuel' rest
      else if b <? 224 then
        match rest with
        | b1 :: rest' => ((b - 192) * 64 + (b1 - 128)) :: utf8 fuel' rest'
        | _ => []
        end
      else if b <? 240 then
        match rest with
        | b1 :: b2 :: rest' =>
            ((b - 224) * 4096 + (b1 - 128) * 64 + (b2 - 128)) :: utf8 fuel' rest'
        | _ => []
        end
      else
        match rest with
        | b1 :: b2 :: b3 :: rest' =>
            ((b - 240) * 262144 + (b1 - 128) * 4096 + (b2 - 128) * 64 + (b3 - 128))
              :: utf8 fuel' rest'
        | _ => []
        end
    end
  end.

Definition u (s : string) : str :=
  let bs := map N_of_ascii (list_ascii_of_string s) in
  utf8 (List.length bs) bs.

Fixpoint str_eqb (a b : str) : bool :=
  match a, b with
  | [], [] => true
  | x :: a', y :: b' => (x =? y) && str_eqb a' b'
  | _, _ => false
  end.

(** [s.startswith(prefix)] *)
Fixpoint startswith (s prefix : str) : bool :=
  match prefix, s with
  | [], _ => true
  | p :: prefix', c :: s' => (c =? p) && startswith s' prefix'
  | _ :: _, [] => false
  end.

(** [needle in hay] for two strings: [needle] occurs in [hay] as a contiguous
    substring. *)
Fixpoint str_in (needle hay : str) : bool :=
  startswith hay needle ||
  match hay with
  | [] => false
  | _ :: hay' => str_in needle hay'
  end.

(** [s.split(sep)] for a one-character separator. *)
Fixpoint split (sep : char) (s : str) : list str :=
  match s with
  | [] => [[]]
  | c :: s' =>
    if c =? sep then [] :: split sep s'
    else match split sep s' with
         | piece :: pieces => (c :: piece) :: pieces
         | [] => [[c]]
         end
  end.

(** ** Python lists and dicts *)

(** [x in l] for a list of strings. *)
Definition list_in (x : str) (l : list str) : bool := existsb (str_eqb x) l.

(** [l.remove(x)]: the first occurrence of [x] is removed. *)
Fixpoint list_remove (x : str) (l : list str) : list str :=
  match l with
  | [] => []
  | y :: l' => if str_eqb x y then l' else y :: list_remove x l'
  end.

Definition dict (V : Type) := list (str * V).

Fixpoint dict_get {V} (d : dict V) (k : str) : option V :=
  match d with
  | [] => None
  | (k', v) :: d' => if str_eqb k k' then Some v else dict_get d' k
  end.

Definition dict_in {V} (d : dict V) (k : str) : bool :=
  match dict_get d k with Some _ => true | None => false end.

Definition dict_get_default {V} (d : dict V) (k : str) (default : V) : V :=
  match dict_get d k with Some v => v | None => default end.

(** ** Constants of [AspectExtractor.__init__] *)

Definition PAIRED_L2R : dict str :=
  [(u "(", u ")"); (u "[", u "]"); (u "«", u "»"); (u "{", u "}")].

(** [dict(zip(PAIRED_L2R.values(), PAIRED_L2R.keys()))] *)
Definition PAIRED_R2L : dict str :=
  combine (map snd PAIRED_L2R) (map fst PAIRED_L2R).

Definition UNPAIRED_PUNCT : str := u ".,:;!?%^".

(** The single symmetric quote mark, code point 34. *)
Definition SYMM_QUOTES : list str := [[34]].

Definition GRAMMEME_MAPPING : dict str :=
  [(u "Fem", u "femn"); (u "Masc", u "masc"); (u "Neut", u "neut");
   (u "Plur", u "plur"); (u "Sing", u "sing")].

Definition NOUN_DEP : list str :=
  [u "appos"; u "acl"; u "amod"; u "det"; u "clf"; u "nummod"].

(** ** The punctuation families *)

Definition is_quote (t : str) : bool := list_in t SYMM_QUOTES.
Definition is_left (t : str) : bool := dict_in PAIRED_L2R t.
Definition is_right (t : str) : bool := dict_in PAIRED_R2L t.

(** What the repair loops write for an entry of either stack. *)
Definition left_of (p : str) : str := dict_get_default PAIRED_R2L p p.
Definition right_of (p : str) : str := dict_get_default PAIRED_L2R p p.

(** Number of occurrences of a token in a token list. *)
Definition count (t : str) (l : list str) : nat :=
  List.length (filter (str_eqb t) l).

(** ** [balance_parentheses] *)

(** One iteration of the scan over [text]; the state is
    [(left_stack, right_stack)].  The last two [elif] branches of the source
    test [token in PAIRED_R2L] and then whether [PAIRED_R2L[token]] is in
    [left_stack] or not; they are the two arms of the inner [if]. *)
Definition scan_step (st : list str * list str) (token : str)
  : list str * list str :=
  let '(left_stack, right_stack) := st in
  if list_in token SYMM_QUOTES && list_in token left_stack then
    (list_remove token left_stack, right_stack)
  else if dict_in PAIRED_L2R token || list_in token SYMM_QUOTES then
    (token :: left_stack, right_stack)
  else
    match dict_get PAIRED_R2L token with
    | Some l =>
      if list_in l left_stack then (list_remove l left_stack, right_stack)
      else (left_stack, token :: right_stack)
    | None => st
    end.

Definition scan (text : list str) (st : list str * list str) :=
  fold_left scan_step text st.

(** [for p in right_stack: text.insert(0, PAIRED_R2L.get(p, p))] *)
Definition prepend_lefts (right_stack : list str) (text : list str) : list str :=
  fold_left (fun text p => dict_get_default PAIRED_R2L p p :: text)
            right_stack text.

(** [for p in left_stack: text.append(PAIRED_L2R.get(p, p))] *)
Definition append_rights (left_stack : list str) (text : list str) : list str :=
  fold_left (fun text p => text ++ [dict_get_default PAIRED_L2R p p])
            left_stack text.

(** The source inserts into the list it was given and returns that list:
    as a function of the tokens the list holds at the call, the tokens it
    holds at the return are these. *)
Definition balance_parentheses (text : list str) : list str :=
  let '(left_stack, right_stack) := scan text ([], []) in
  append_rights left_stack (prepend_lefts right_stack text).

(** *** The scan by cases *)

(** The ways one iteration of the scan can go, on the stacks [L] and [R]. *)
Inductive step_case (L R : list str) (t : str) : list str * list str -> Prop :=
| close_quote :
    is_quote t = true -> In t L -> step_case L R t (list_remove t L, R)
| open_quote :
    is_quote t = true -> ~ In t L -> step_case L R t (t :: L, R)
| open_left :
    is_left t = true -> is_quote t = false -> step_case L R t (t :: L, R)
| close_right l :
    dict_get PAIRED_R2L t = Some l -> In l L ->
    step_case L R t (list_remove l L, R)
| push_right l :
    dict_get PAIRED_R2L t = Some l -> ~ In l L ->
    step_case L R t (L, t :: R)
| skip_other :
    is_quote t = false -> is_left t = false ->
    dict_get PAIRED_R2L t = None -> step_case L R t (L, R).

(** The entries of the left stack: left brackets and quote marks. *)
Definition opener (t : str) : Prop := is_left t = true \/ is_quote t = true.

(** [1] when the token [p] is [t], [0] otherwise. *)
Definition hit (t p : str) : nat := if str_eqb t p then 1%nat else 0%nat.

(** ** [detokenize] *)

(** One iteration of the loop; the state is [(detokenized_text, sep)]. *)
Definition detok_step (st : list str * str) (token : str) : list str * str :=
  let '(detokenized_text, sep) := st in
  if str_in token UNPAIRED_PUNCT || dict_in PAIRED_R2L token then
    (detokenized_text ++ [token], sep)
  else
    (detokenized_text ++ [sep ++ token],
     if dict_in PAIRED_L2R token then [] else u " ").

Definition detokenize (text : list str) : str :=
  concat (fst (fold_left detok_step text ([], []))).

(** *** The separators in closed form *)

(** The test of the first branch of the loop: the token is a substring of
    [UNPAIRED_PUNCT] or a key of [PAIRED_R2L]. *)
Definition glued (token : str) : bool :=
  str_in token UNPAIRED_PUNCT || dict_in PAIRED_R2L token.

(** The nearest token of [before], from its end, that is not glued. *)
Definition last_word (before : list str) : option str :=
  find (fun t => negb (glued t)) (rev before).

(** The value of [sep] when the loop has read the tokens [before]. *)
Definition flag_after (before : list str) : str :=
  match last_word before with
  | Some w => if dict_in PAIRED_L2R w then [] else u " "
  | None => []
  end.

(** The separator written before [token] when the tokens [before] precede
    it: none before a glued token, the flag otherwise. *)
Definition sep_before (before : list str) (token : str) : str :=
  if glued token then [] else flag_after before.

(** The strings the loop collects for [text] read after [before]. *)
Fixpoint pieces (before text : list str) : list str :=
  match text with
  | [] => []
  | token :: text' =>
      (sep_before before token ++ token) :: pieces (before ++ [token]) text'
  end.

(** *** The separator rule as the specification words it *)

(** The set of unpaired
    punctuation marks holds the eight one-character tokens; no space before
    one of them or before a right bracket; the flag for the next separator is
    reset to empty after a left bracket and to a single space after any other
    token. *)
Definition in_punct_set (token : str) : bool :=
  list_in token (map (fun c => [c]) UNPAIRED_PUNCT).

Definition detok_step_spec (st : list str * str) (token : str) : list str * str :=
  let '(out, sep) := st in
  (out ++ [if in_punct_set token || dict_in PAIRED_R2L token then token
           else sep ++ token],
   if dict_in PAIRED_L2R token then [] else u " ").

Definition detokenize_spec (text : list str) : str :=
  concat (fst (fold_left detok_step_spec text ([], []))).

(** ** External collaborators *)

(** A parse of the morphological analyser: [tag.POS], which may be [None],
    and [inflect(grammemes)] reduced to the [word] of the form it returns
    ([None] when there is no such form). *)
Record Parse := {
  POS : option str;
  inflect_word : list str -> option str
}.

(** A token of a parsed document: its index [i], [text], [pos_], [dep_], the
    index of its [head], and the [Number] and [Gender] entries of [morph]. *)
Record Token := {
  i : nat;
  text : str;
  pos_ : str;
  dep_ : str;
  head : nat;
  morph_Number : list str;
  morph_Gender : list str
}.

(** A parsed document: its tokens and the root of the span [doc[::]]. *)
Record Doc := {
  doc_tokens : list Token;
  doc_root : Token
}.

(** [token.children]: the tokens whose head is [token], itself apart. *)
Definition children (doc : Doc) (token : Token) : list Token :=
  filter (fun child => Nat.eqb (head child) (i token) &&
                       negb (Nat.eqb (i child) (i token)))
         (doc_tokens doc).

(** A comprehension [[f(a) for a in l]] whose body may raise. *)
Fixpoint mapM {A B} (f : A -> option B) (l : list A) : option (list B) :=
  match l with
  | [] => Some []
  | a :: l' =>
    match f a with
    | None => None
    | Some b =>
      match mapM f l' with
      | None => None
      | Some bs => Some (b :: bs)
      end
    end
  end.

(** ** [get_noun_grammemes] *)

Definition get_noun_grammemes (token : Token) : list str :=
  let number :=
    dict_get_default GRAMMEME_MAPPING (concat (morph_Number token)) (u "sing") in
  let gender :=
    dict_get_default GRAMMEME_MAPPING (concat (morph_Gender token)) (u "masc") in
  if str_eqb number (u "plur") then [number] else [gender].

Section Extractor.

(** [self.morph.parse], [self.syntax_parser] applied to a document of the
    given words, [self.do_normalize], [str.upper] on one character, and
    [self.predictor.extract]. *)
Variable morph_parse : str -> list Parse.
Variable syntax_parser : list str -> Doc.
Variable do_normalize : bool.
Variable upper : char -> str.
Variable Text : Type.
Variable predictor_extract : Text -> list (str * str).

(** ** [inflect] *)

(** [any(parse.tag.POS.startswith(prefix) for prefix in pos if parse.tag.POS)];
    an empty or missing part of speech is falsy and filters every prefix out. *)
Definition pos_matches (parse : Parse) (pos : list str) : bool :=
  match POS parse with
  | Some (c :: p) => existsb (fun prefix => startswith (c :: p) prefix) pos
  | _ => false
  end.

(** The loop [for parse in parses: if ...: break].  The loop variable is the
    variable [parse] that was set to [parses[0]] before: each iteration
    rebinds it, and after the loop it holds the parse at which the loop
    stopped, or the last one iterated over. *)
Fixpoint select_parse (parse : Parse) (parses : list Parse) (pos : list str)
  : Parse :=
  match parses with
  | [] => parse
  | p :: parses' => if pos_matches p pos then p else select_parse p parses' pos
  end.

(** [parses[0]] raises on an empty list of parses; [form] is falsy only when
    it is [None]. *)
Definition inflect (token : str) (pos : list str) (grammemes : list str)
  : option str :=
  let parses := morph_parse token in
  match parses with
  | [] => None
  | parse0 :: _ =>
    let parse := select_parse parse0 parses pos in
    match inflect_word parse grammemes with
    | Some word => Some word
    | None => Some token
    end
  end.

(** ** [normalize] *)

(** The body of [for token in doc[::]]: the replacement of one token, by the
    first of the five cases that applies. *)
Definition normalize_token (doc : Doc) (root : Token) (grammemes : list str)
                           (token : Token) : option str :=
  if str_eqb (dep_ token) (u "nummod") then
    inflect (text token) [] [u "nomn"]
  else if existsb (fun child => startswith (dep_ child) (u "nummod"))
                  (children doc token) then
    inflect (text token) [u "NOUN"] [u "gent"]
  else if Nat.eqb (i token) (i root) then
    inflect (text token) [u "NOUN"] [u "nomn"]
  else if Nat.eqb (head token) (i root) && list_in (dep_ token) NOUN_DEP then
    inflect (text token) [u "ADJ"; u "PRT"] (u "nomn" :: grammemes)
  else Some (text token).

(** The tokens that the loop hands to [inflect]: those of one of the first
    four cases. *)
Definition inflected (doc : Doc) (root : Token) (token : Token) : bool :=
  str_eqb (dep_ token) (u "nummod") ||
  existsb (fun child => startswith (dep_ child) (u "nummod"))
          (children doc token) ||
  Nat.eqb (i token) (i root) ||
  (Nat.eqb (head token) (i root) && list_in (dep_ token) NOUN_DEP).

(** [Doc(self.syntax_parser.vocab, words=tokens)] raises when one of the
    words is the empty string, and [doc[::].root] raises on a document
    without words; [syntax_parser] stands for the pipeline on a document
    with at least one word and no empty word. *)
Definition normalize (tokens : list str) : option (list str) :=
  if list_in [] tokens then None
  else
    match tokens with
    | [] => None
    | _ :: _ =>
      let doc := syntax_parser tokens in
      let root := doc_root doc in
      if str_eqb (pos_ root) (u "NOUN") then
        let grammemes := get_noun_grammemes root in
        mapM (normalize_token doc root grammemes) (doc_tokens doc)
      else Some tokens
    end.

(** ** [process] *)

(** [text[0]] raises on the empty string. *)
Definition process (text : list str) : option str :=
  match (if do_normalize then normalize text else Some text) with
  | None => None
  | Some text =>
    let text := balance_parentheses text in
    let text := detokenize text in
    match text with
    | [] => None
    | c :: rest => Some (upper c ++ rest)
    end
  end.

(** ** [extract_aspects] *)

(** [d[k] = v] on a dict in insertion order. *)
Fixpoint dict_set {V} (d : dict V) (k : str) (v : V) : dict V :=
  match d with
  | [] => [(k, v)]
  | (k', v') :: d' =>
    if str_eqb k k' then (k', v) :: d' else (k', v') :: dict_set d' k v
  end.

(** [spans[-1].append(token)]; [None] when [spans] is empty. *)
Fixpoint append_to_last (spans : list (list str)) (token : str)
  : option (list (list str)) :=
  match spans with
  | [] => None
  | [span] => Some [span ++ [token]]
  | span :: spans' =>
    match append_to_last spans' token with
    | Some spans'' => Some (span :: spans'')
    | None => None
    end
  end.

(** The body of [for aspect in aspects_for_token], on the [defaultdict]
    [extracted_aspects]: a missing key reads as the empty list. *)
Definition add_token (prev_label cur_token : str)
                     (extracted_aspects : dict (list (list str))) (aspect : str)
  : option (dict (list (list str))) :=
  let extracted_aspects :=
    if negb (str_in aspect prev_label) then
      dict_set extracted_aspects aspect
               (dict_get_default extracted_aspects aspect [] ++ [[]])
    else extracted_aspects in
  match append_to_last (dict_get_default extracted_aspects aspect []) cur_token with
  | Some spans => Some (dict_set extracted_aspects aspect spans)
  | None => None
  end.

(** [cur_label.split('|')], emptied when it holds ['O']. *)
Definition aspects_for_token (cur_label : str) : list str :=
  let aspects := split 124 cur_label in
  if list_in (u "O") aspects then [] else aspects.

(** The label of the previous token as the loop reads it. *)
Definition prev_label_at (result : list (str * str)) (n : nat) : str :=
  if Nat.eqb n 0 then [] else snd (nth (n - 1) result ([], [])).

(** The loop [for aspect in aspects_for_token], stopped by an exception. *)
Definition add_tokens (prev_label cur_token : str) (aspects : list str)
                      (acc : option (dict (list (list str))))
  : option (dict (list (list str))) :=
  fold_left (fun acc aspect =>
               match acc with
               | Some extracted_aspects =>
                   add_token prev_label cur_token extracted_aspects aspect
               | None => None
               end)
            aspects acc.

(** The body of [for i, (cur_token, cur_label) in enumerate(result)]. *)
Definition decode_step (result : list (str * str))
                       (acc : option (dict (list (list str))))
                       (entry : nat * (str * str))
  : option (dict (list (list str))) :=
  let '(n, (cur_token, cur_label)) := entry in
  let prev_label := prev_label_at result n in
  add_tokens prev_label cur_token (aspects_for_token cur_label) acc.

(** The grouping loop of [extract_aspects]: the value of [extracted_aspects]
    when the loop ends, [None] when it raises. *)
Definition decode (result : list (str * str))
  : option (dict (list (list str))) :=
  fold_left (decode_step result)
            (combine (seq 0 (List.length result)) result) (Some []).

(** The same loop with the previous label handed from one iteration to the
    next. *)
Fixpoint decode_from (prev_label : str) (rest : list (str * str))
                     (acc : option (dict (list (list str))))
  : option (dict (list (list str))) :=
  match rest with
  | [] => acc
  | (cur_token, cur_label) :: rest' =>
      decode_from cur_label rest'
        (add_tokens prev_label cur_token (aspects_for_token cur_label) acc)
  end.

Definition extract_aspects (text : Text) : option (dict (list str)) :=
  match decode (predictor_extract text) with
  | None => None
  | Some extracted_aspects =>
    mapM (fun '(aspect, mentions) =>
            match mapM process mentions with
            | Some processed => Some (aspect, processed)
            | None => None
            end)
         extracted_aspects
  end.

End Extractor.

(** ** The continuation law as the specification words it *)

(** [ASPECTS_LIST] of [utils.py], the fixed vocabulary of categories. *)
Definition ASPECTS_LIST : list str :=
  [u "Task"; u "Contrib"; u "Method"; u "Conc"].

(** [sep.join(l)] for a one-character separator. *)
Fixpoint join (sep : char) (l : list str) : str :=
  match l with
  | [] => []
  | [x] => x
  | x :: l' => x ++ sep :: join sep l'
  end.

(** A label of the wire format: the sentinel, or categories of the vocabulary
    joined by the delimiter. *)
Definition wf_label (label : str) : Prop :=
  label = u "O" \/
  exists cats, cats <> [] /\ (forall c, In c cats -> In c ASPECTS_LIST) /\
               label = join 124 cats.

(** For each category [c] of the current label set: when [c] is not in the
    label set of the previous token a new span is started; the token is
    appended to the span of [c] started last. *)
Definition add_token_spec (prev_set : list str) (cur_token : str)
                          (spans_of : dict (list (list str))) (c : str)
  : option (dict (list (list str))) :=
  let spans_of :=
    if negb (list_in c prev_set) then
      dict_set spans_of c (dict_get_default spans_of c [] ++ [[]])
    else spans_of in
  match append_to_last (dict_get_default spans_of c []) cur_token with
  | Some spans => Some (dict_set spans_of c spans)
  | None => None
  end.

Definition add_tokens_spec (prev_set : list str) (cur_token : str)
                           (cur_set : list str)
                           (acc : option (dict (list (list str))))
  : option (dict (list (list str))) :=
  fold_left (fun acc c =>
               match acc with
               | Some spans_of => add_token_spec prev_set cur_token spans_of c
               | None => None
               end)
            cur_set acc.

(** The label set of a label is read as the loop reads the current label;
    the label set of the token before the first is empty. *)
Fixpoint decode_spec_from (prev_set : list str) (rest : list (str * str))
                          (acc : option (dict (list (list str))))
  : option (dict (list (list str))) :=
  match rest with
  | [] => acc
  | (cur_token, cur_label) :: rest' =>
      decode_spec_from (aspects_for_token cur_label) rest'
        (add_tokens_spec prev_set cur_token (aspects_for_token cur_label) acc)
  end.

Definition decode_spec (result : list (str * str))
  : option (dict (list (list str))) :=
  decode_spec_from [] result (Some []).

(** The raw previous label and the previous label set answer alike for the
    categories of the current label. *)
Definition agree (prev_label : str) (prev_set : list str) (cur_label : str)
  : Prop :=
  forall c, In c (aspects_for_token cur_label) ->
            str_in c prev_label = list_in c prev_set.

Fixpoint agree_chain (prev_label : str) (prev_set : list str)
                     (rest : list (str * str)) : Prop :=
  match rest with
  | [] => True
  | (_, cur_label) :: rest' =>
      agree prev_label prev_set cur_label /\
      agree_chain cur_label (aspects_for_token cur_label) rest'
  end.

(** The categories of [keys] have a span in [spans_of]. *)
Definition open_keys (spans_of : dict (list (list str))) (keys : list str)
  : Prop :=
  forall c, In c keys -> dict_get_default spans_of c [] <> [].

(** ** Inputs used in the examples *)

(** An analyser that gives every word two parses, a numeral whose forms are
    all written [first] and a verb whose forms are all written [last]. *)
Definition two_parses : list Parse :=
  [ {| POS := Some (u "NUMR"); inflect_word := fun _ => Some (u "first") |};
    {| POS := Some (u "VERB"); inflect_word := fun _ => Some (u "last") |} ].

Definition two_parse_morph (token : str) : list Parse := two_parses.

(** * The rest of [extractor.py] and [utils.py] *)

(** A token that is no bracket and no quote mark. *)
Definition plain (t : str) : Prop :=
  is_left t = false /\ is_right t = false /\ is_quote t = false.

(** ** [print_extracted_aspects] *)

Definition TRANSLATIONS : dict (str * str) :=
  [(u "Task", (u "Задача", u "Задачи"));
   (u "Method", (u "Метод", u "Методы"));
   (u "Contrib", (u "Вклад", u "Вклад"));
   (u "Conc", (u "Вывод", u "Выводы"))].

(** The decimal digits of a number, as [f'{n}'] writes them. *)
Fixpoint uint_digits (d : Decimal.uint) : str :=
  match d with
  | Decimal.Nil => []
  | Decimal.D0 d => 48 :: uint_digits d
  | Decimal.D1 d => 49 :: uint_digits d
  | Decimal.D2 d => 50 :: uint_digits d
  | Decimal.D3 d => 51 :: uint_digits d
  | Decimal.D4 d => 52 :: uint_digits d
  | Decimal.D5 d => 53 :: uint_digits d
  | Decimal.D6 d => 54 :: uint_digits d
  | Decimal.D7 d => 55 :: uint_digits d
  | Decimal.D8 d => 56 :: uint_digits d
  | Decimal.D9 d => 57 :: uint_digits d
  end.

Definition decimal (n : nat) : str := uint_digits (Nat.to_uint n).

(** [for i, mention in enumerate(mentions): print(f'{i + 1}. {mention}')],
    the enumeration starting at [n]. *)
Fixpoint numbered (n : nat) (mentions : list str) : list str :=
  match mentions with
  | [] => []
  | mention :: mentions' =>
      (decimal (n + 1) ++ u ". " ++ mention) :: numbered (S n) mentions'
  end.

Section Printer.

(** [str.upper] on one character. *)
Variable upper : char -> str.

(** [s.upper()]: every character is replaced by its upper-case form. *)
Definition str_upper (s : str) : str := flat_map upper s.

(** The loop over [extracted_aspects.items()].  The result is the lines
    printed and whether the loop raised: [self.TRANSLATIONS[aspect]] raises
    [KeyError] for a category without translation, after the lines of the
    categories before it were printed. *)
Fixpoint print_loop (items : dict (list str)) (printed : list str)
  : list str * bool :=
  match items with
  | [] => (printed, false)
  | (aspect, mentions) :: items' =>
    match dict_get TRANSLATIONS aspect with
    | None => (printed, true)
    | Some (singular, plural) =>
      let aspect_name_ru :=
        if Nat.eqb (List.length mentions) 1 then singular else plural in
      print_loop items'
        (printed ++ str_upper aspect_name_ru :: numbered 0 mentions)
    end
  end.

Definition print_extracted_aspects (extracted_aspects : dict (list str))
  : list str * bool :=
  print_loop extracted_aspects [].

End Printer.

(** ** [utils.py] *)

(** [[item for nest in nested_list for item in nest]] *)
Definition flatten {A} (nested_list : list (list A)) : list A :=
  flat_map (fun nest => nest) nested_list.

(** [sorted(l, key=key, reverse=True)].  The sort is stable, also when
    reversed: elements with equal keys keep their order.  An element is
    put before the first element of the sorted rest whose key is not
    greater than its own. *)
Fixpoint insert_desc {A} (key : A -> nat) (x : A) (l : list A) : list A :=
  match l with
  | [] => [x]
  | y :: l' =>
    if Nat.leb (key y) (key x) then x :: y :: l'
    else y :: insert_desc key x l'
  end.

Definition sorted_desc {A} (key : A -> nat) (l : list A) : list A :=
  fold_right (insert_desc key) [] l.

(** [zip] is [combine]: it stops at the end of the shorter list. *)
Definition sort_dataset {A B} (samples : list (list A)) (labels : list B)
  : list (list A) * list B :=
  let sorted_dataset :=
    sorted_desc (fun x => List.length (fst x)) (combine samples labels) in
  (map fst sorted_dataset, map snd sorted_dataset).

(** The set [puncts] of [tokenize]. *)
Definition puncts : list char :=
  u "():;,." ++ [34] ++ u "»«[]{}%^".

(** The inner loop of [tokenize]: no character of the token is outside
    [puncts]. *)
Definition is_all_puncts (token : str) : bool :=
  forallb (fun c => existsb (N.eqb c) puncts) token.

(** The loop of [tokenize] over the tokens of [wordpunct_tokenize]:
    [extend(list(token))] for a token of punctuation only, [append(token)]
    otherwise. *)
Definition validated_tokens (tokens : list str) : list str :=
  flat_map (fun token =>
              if is_all_puncts token then map (fun c => [c]) token
              else [token])
           tokens.

Section Tokenizer.

(** [nltk.tokenize.wordpunct_tokenize]. *)
Variable wordpunct_tokenize : str -> list str.

Definition tokenize (text : str) : list str :=
  validated_tokens (wordpunct_tokenize text).

End Tokenizer.

(** ** Spacing of a string *)

(** Reading a string while remembering whether the last character was a
    space (at the start: as if it was): [None] when a space follows a space
    or stands first, the memory at the end otherwise. *)
Fixpoint read_spaces (after_space : bool) (s : str) : option bool :=
  match s with
  | [] => Some after_space
  | c :: s' =>
    if c =? 32 then
      if after_space then None else read_spaces true s'
    else read_spaces false s'
  end.

(** A character that is no space. *)
Definition not_space (c : char) : bool := negb (c =? 32).

(** What the loop keeps true of the text written so far and the flag. *)
Definition spaced (before : list str) (out : str) : Prop :=
  (out = [] \/ read_spaces true out = Some false) /\
  (flag_after before = [32] -> out <> []).

(** ** Vocabulary for the properties of the grouping loop *)

(** The categories a labelled token is filed under, as the loop reads its
    label. *)
Definition categories_of (entry : str * str) : list str :=
  aspects_for_token (snd entry).

(** The tokens of [result] filed under the category [c], in their order,
    each as often as its label names [c]. *)
Definition tokens_of (c : str) (result : list (str * str)) : list str :=
  flat_map (fun entry => repeat (fst entry) (count c (categories_of entry)))
           result.

(** Keys in the order in which they are first seen. *)
Definition add_key (keys : list str) (k : str) : list str :=
  if list_in k keys then keys else keys ++ [k].

Definition first_seen (l : list str) : list str := fold_left add_key l [].

(** Every category has a span, and no span is empty. *)
Definition spans_filled (spans_of : dict (list (list str))) : Prop :=
  Forall (fun entry => snd entry <> [] /\
                       Forall (fun span : list str => span <> []) (snd entry))
         spans_of.

(** The categories of a collection, each with the number of its entries. *)
Definition mention_counts {A} (d : dict (list A)) : list (str * nat) :=
  map (fun entry => (fst entry, List.length (snd entry))) d.

(** ** Runs of flagged tokens *)

(** A finished run is kept when it holds a token. *)
Definition push_run (cur : list str) (done : list (list str))
  : list (list str) :=
  match cur with
  | [] => done
  | _ => cur :: done
  end.

(** From the end of the text: the run that is open at this point and the
    runs after it. *)
Definition runs_state (l : list (str * bool)) : list str * list (list str) :=
  fold_right (fun (entry : str * bool) (st : list str * list (list str)) =>
                if snd entry then (fst entry :: fst st, snd st)
                else ([], push_run (fst st) (snd st)))
             ([], []) l.

(** The maximal runs of consecutive flagged tokens, in the order of the
    text. *)
Definition segments (l : list (str * bool)) : list (list str) :=
  push_run (fst (runs_state l)) (snd (runs_state l)).

(** The tokens of a labelled sequence, each flagged when its label names the
    category [c]. *)
Definition flagged (c : str) (result : list (str * str)) : list (str * bool) :=
  map (fun entry => (fst entry, list_in c (categories_of entry))) result.

(** The loop of the law seen from one category: a flagged token is appended
    to the last span when the token before was flagged too ([continued]),
    and to a new span otherwise. *)
Fixpoint cat_run (continued : bool) (l : list (str * bool))
                 (spans : list (list str)) : option (list (list str)) :=
  match l with
  | [] => Some spans
  | (token, true) :: l' =>
    match append_to_last (if continued then spans else spans ++ [[]]) token with
    | Some spans' => cat_run true l' spans'
    | None => None
    end
  | (_, false) :: l' => cat_run false l' spans
  end.

(** ** A parsed phrase used in the examples *)

(** An adjective that depends on the noun after it, the root. *)
Definition adjective_noun (words : list str) : Doc :=
  let adjective :=
    {| i := 0; text := nth 0 words []; pos_ := u "ADJ"; dep_ := u "amod";
       head := 1; morph_Number := [u "Plur"]; morph_Gender := [] |} in
  let noun :=
    {| i := 1; text := nth 1 words []; pos_ := u "NOUN"; dep_ := u "ROOT";
       head := 1; morph_Number := [u "Plur"]; morph_Gender := [] |} in
  {| doc_tokens := [adjective; noun]; doc_root := noun |}.
(** * Properties *)

(** ** The embedding on small inputs *)

Example split_label : split 124 (u "Method|Task") = [u "Method"; u "Task"].
Proof. reflexivity. Qed.

Example split_empty_label : split 124 [] = [[]].
Proof. reflexivity. Qed.

Example str_in_substring :
  str_in (u "Meth") (u "Method|O") = true /\ str_in [] [] = true /\
  str_in (u "Task") (u "O") = false.
Proof. repeat split; reflexivity. Qed.

Example dict_R2L : PAIRED_R2L =
  [(u ")", u "("); (u "]", u "["); (u "»", u "«"); (u "}", u "{")].
Proof. reflexivity. Qed.

Example balance_nested :
  balance_parentheses [u "a"; u "("; u "b"; u ")"] = [u "a"; u "("; u "b"; u ")"].
Proof. reflexivity. Qed.

Example balance_quote :
  balance_parentheses [[34]; u "a"] = [[34]; u "a"; [34]].
Proof. reflexivity. Qed.

Example detokenize_phrase :
  detokenize [u "a"; u "("; u "b"; u ")"; u ","; u "c"] = u "a (b), c".
Proof. reflexivity. Qed.

(** ** Equality, membership and removal *)

Lemma str_eqb_eq (a b : str) : str_eqb a b = true <-> a = b.
Proof.
  revert b; induction a as [|x a IH]; intros [|y b]; simpl;
    try (split; [discriminate | congruence]); try tauto.
  rewrite andb_true_iff, N.eqb_eq, IH. split.
  - intros [-> ->]; reflexivity.
  - intros E; inversion E; auto.
Qed.

Lemma str_eqb_refl (a : str) : str_eqb a a = true.
Proof. apply str_eqb_eq; reflexivity. Qed.

Lemma str_eqb_neq (a b : str) : str_eqb a b = false <-> a <> b.
Proof.
  rewrite <- str_eqb_eq. destruct (str_eqb a b); split; congruence.
Qed.

Lemma list_in_In (x : str) (l : list str) : list_in x l = true <-> In x l.
Proof.
  unfold list_in. rewrite existsb_exists. split.
  - intros [y [Hy E]]. apply str_eqb_eq in E. subst; assumption.
  - intros H. exists x. split; [assumption | apply str_eqb_refl].
Qed.

Lemma list_in_not_In (x : str) (l : list str) : list_in x l = false <-> ~ In x l.
Proof.
  rewrite <- list_in_In. destruct (list_in x l); split; congruence.
Qed.

Lemma list_in_perm (x : str) (l l' : list str) :
  Permutation l l' -> list_in x l = list_in x l'.
Proof.
  intros P. destruct (list_in x l') eqn:E.
  - apply list_in_In. apply list_in_In in E.
    apply Permutation_in with l'; [symmetry|]; assumption.
  - apply list_in_not_In. apply list_in_not_In in E.
    intros H; apply E. apply Permutation_in with l; assumption.
Qed.

Lemma list_remove_perm (x : str) (l : list str) :
  In x l -> Permutation l (x :: list_remove x l).
Proof.
  induction l as [|y l IH]; simpl; [tauto|].
  intros H. destruct (str_eqb x y) eqn:E.
  - apply str_eqb_eq in E. subst. reflexivity.
  - destruct H as [->|H]; [rewrite str_eqb_refl in E; discriminate|].
    rewrite perm_swap. constructor. auto.
Qed.

Lemma list_remove_perm_inv (x : str) (l l' : list str) :
  In x l -> Permutation l (x :: l') -> Permutation (list_remove x l) l'.
Proof.
  intros H P. apply Permutation_cons_inv with x.
  rewrite <- P. symmetry. apply list_remove_perm; assumption.
Qed.

(** ** The punctuation families *)

Ltac case_key k :=
  repeat match goal with
  | H : context [str_eqb k ?c] |- _ =>
      let E := fresh "E" in
      destruct (str_eqb k c) eqn:E;
      [apply str_eqb_eq in E; subst k | clear E]
  | |- context [str_eqb k ?c] =>
      let E := fresh "E" in
      destruct (str_eqb k c) eqn:E;
      [apply str_eqb_eq in E; subst k | clear E]
  end.

Lemma R2L_some (r l : str) :
  dict_get PAIRED_R2L r = Some l ->
  dict_get PAIRED_L2R l = Some r /\ is_left l = true /\ is_quote l = false /\
  is_left r = false /\ is_quote r = false.
Proof.
  unfold is_left, is_quote, dict_in, list_in. cbn.
  intros H. case_key r; inversion H; subst; cbn; repeat split; auto.
Qed.

Lemma L2R_some (l r : str) :
  dict_get PAIRED_L2R l = Some r ->
  dict_get PAIRED_R2L r = Some l /\ is_right r = true /\ is_quote l = false /\
  is_left r = false /\ is_quote r = false /\ dict_get PAIRED_R2L l = None.
Proof.
  unfold is_left, is_right, is_quote, dict_in, list_in. cbn.
  intros H. case_key l; inversion H; subst; cbn; repeat split; auto.
Qed.

Lemma quote_not_bracket (q : str) :
  is_quote q = true ->
  dict_get PAIRED_L2R q = None /\ dict_get PAIRED_R2L q = None.
Proof.
  unfold is_quote, list_in. cbn. intros H.
  case_key q; cbn in *; try discriminate; auto.
Qed.

Lemma is_left_some (l : str) :
  is_left l = true -> exists r, dict_get PAIRED_L2R l = Some r.
Proof.
  unfold is_left, dict_in. destruct (dict_get PAIRED_L2R l) as [r|];
    [eauto | discriminate].
Qed.

Lemma is_right_some (r : str) :
  is_right r = true -> exists l, dict_get PAIRED_R2L r = Some l.
Proof.
  unfold is_right, dict_in. destruct (dict_get PAIRED_R2L r) as [l|];
    [eauto | discriminate].
Qed.

Lemma left_of_right (r l : str) :
  dict_get PAIRED_R2L r = Some l -> left_of r = l.
Proof. unfold left_of, dict_get_default. intros ->. reflexivity. Qed.

Lemma right_of_left (l r : str) :
  dict_get PAIRED_L2R l = Some r -> right_of l = r.
Proof. unfold right_of, dict_get_default. intros ->. reflexivity. Qed.

Lemma right_of_quote (q : str) : is_quote q = true -> right_of q = q.
Proof.
  intros H. apply quote_not_bracket in H as [H _].
  unfold right_of, dict_get_default. rewrite H. reflexivity.
Qed.

(** ** The scan of [balance_parentheses] *)

Lemma scan_step_case (L R : list str) (t : str) :
  step_case L R t (scan_step (L, R) t).
Proof.
  unfold scan_step. fold (is_quote t) (is_left t).
  destruct (is_quote t) eqn:Q; cbn [andb orb].
  - destruct (list_in t L) eqn:I.
    + apply close_quote; [assumption | apply list_in_In; assumption].
    + rewrite orb_true_r. apply open_quote;
        [assumption | apply list_in_not_In; assumption].
  - rewrite orb_false_r. destruct (is_left t) eqn:E.
    + apply open_left; assumption.
    + destruct (dict_get PAIRED_R2L t) as [l|] eqn:G.
      * destruct (list_in l L) eqn:I.
        -- apply close_right; [assumption | apply list_in_In; assumption].
        -- apply push_right with l; [assumption | apply list_in_not_In; assumption].
      * apply skip_other; assumption.
Qed.

(** The cases exclude one another, so the case decides the step. *)
Lemma step_case_fun (L R : list str) (t : str) (st : list str * list str) :
  step_case L R t st -> scan_step (L, R) t = st.
Proof.
  intros C. unfold scan_step. fold (is_quote t) (is_left t).
  destruct C as [Q I|Q I|E Q|l G I|l G I|Q E G].
  - rewrite Q. apply list_in_In in I. rewrite I. reflexivity.
  - rewrite Q. apply list_in_not_In in I. rewrite I. cbn [andb orb].
    rewrite orb_true_r. reflexivity.
  - rewrite Q, E. reflexivity.
  - destruct (R2L_some _ _ G) as (_ & _ & _ & E & Q). rewrite Q, E, G. cbn [andb orb].
    apply list_in_In in I. rewrite I. reflexivity.
  - destruct (R2L_some _ _ G) as (_ & _ & _ & E & Q). rewrite Q, E, G. cbn [andb orb].
    apply list_in_not_In in I. rewrite I. reflexivity.
  - rewrite Q, E, G. reflexivity.
Qed.

Lemma scan_cons (t : str) (x : list str) (st : list str * list str) :
  scan (t :: x) st = scan x (scan_step st t).
Proof. reflexivity. Qed.

Lemma scan_app (x y : list str) (st : list str * list str) :
  scan (x ++ y) st = scan y (scan x st).
Proof. apply fold_left_app. Qed.

(** The right stack is only ever pushed to, and never read. *)
Lemma scan_step_right (L R : list str) (t : str) :
  scan_step (L, R) t =
  (fst (scan_step (L, []) t), snd (scan_step (L, []) t) ++ R).
Proof.
  unfold scan_step.
  destruct (list_in t SYMM_QUOTES && list_in t L); [reflexivity|].
  destruct (dict_in PAIRED_L2R t || list_in t SYMM_QUOTES); [reflexivity|].
  destruct (dict_get PAIRED_R2L t) as [l|]; [|reflexivity].
  destruct (list_in l L); reflexivity.
Qed.

Lemma scan_right (x : list str) :
  forall L R,
    scan x (L, R) = (fst (scan x (L, [])), snd (scan x (L, [])) ++ R).
Proof.
  induction x as [|t x IH]; intros L R; [reflexivity|].
  rewrite !scan_cons. rewrite (scan_step_right L R).
  destruct (scan_step (L, []) t) as [L1 R1]. simpl.
  rewrite (IH L1 (R1 ++ R)), (IH L1 R1). simpl.
  rewrite app_assoc. reflexivity.
Qed.

Lemma Forall_list_remove (P : str -> Prop) (x : str) (l : list str) :
  Forall P l -> Forall P (list_remove x l).
Proof.
  induction 1 as [|y l Hy Hl IH]; simpl; [constructor|].
  destruct (str_eqb x y); [assumption | constructor; assumption].
Qed.

(** The left stack holds left brackets and quotes only, the right stack right
    brackets only. *)
Lemma scan_opens (x : list str) :
  forall L R, Forall opener L -> Forall opener (fst (scan x (L, R))).
Proof.
  induction x as [|t x IH]; intros L R HL; [assumption|].
  rewrite scan_cons.
  destruct (scan_step_case L R t) as [Q I|Q I|E Q|l G I|l G I|Q E G];
    apply IH; auto using Forall_list_remove.
  - constructor; [right|]; assumption.
  - constructor; [left|]; assumption.
Qed.

Lemma scan_rights (x : list str) :
  forall L R,
    Forall (fun r => is_right r = true) R ->
    Forall (fun r => is_right r = true) (snd (scan x (L, R))).
Proof.
  induction x as [|t x IH]; intros L R HR; [assumption|].
  rewrite scan_cons.
  destruct (scan_step_case L R t) as [Q I|Q I|E Q|l G I|l G I|Q E G];
    apply IH; auto.
  constructor; [|assumption]. unfold is_right, dict_in. rewrite G. reflexivity.
Qed.

(** ** Shape of the repaired text *)

Lemma prepend_lefts_eq (R text : list str) :
  prepend_lefts R text = rev (map left_of R) ++ text.
Proof.
  unfold prepend_lefts. revert text.
  induction R as [|p R IH]; intros text; [reflexivity|].
  simpl. rewrite IH. fold (left_of p). rewrite <- app_assoc. reflexivity.
Qed.

Lemma append_rights_eq (L text : list str) :
  append_rights L text = text ++ map right_of L.
Proof.
  unfold append_rights. revert text.
  induction L as [|p L IH]; intros text; [symmetry; apply app_nil_r|].
  simpl. rewrite IH. fold (right_of p). rewrite <- app_assoc. reflexivity.
Qed.

Lemma balance_parentheses_eq (text : list str) :
  balance_parentheses text =
  rev (map left_of (snd (scan text ([], [])))) ++ text ++
  map right_of (fst (scan text ([], []))).
Proof.
  unfold balance_parentheses. destruct (scan text ([], [])) as [L R].
  rewrite append_rights_eq, prepend_lefts_eq, <- app_assoc. reflexivity.
Qed.

(** ** Rescanning a repaired text *)

(** Left brackets are pushed in turn. *)
Lemma scan_lefts (P : list str) :
  Forall (fun l => is_left l = true) P ->
  forall L R, scan P (L, R) = (rev P ++ L, R).
Proof.
  induction 1 as [|l P Hl HP IH]; intros L R; [reflexivity|].
  rewrite scan_cons.
  destruct (is_left_some _ Hl) as [r G].
  destruct (L2R_some _ _ G) as (_ & _ & Q & _).
  rewrite (step_case_fun L R l (l :: L, R)) by (apply open_left; assumption).
  rewrite IH. simpl. rewrite <- app_assoc. reflexivity.
Qed.

Lemma left_of_right_not_quote (R : list str) (t : str) :
  Forall (fun r => is_right r = true) R ->
  is_quote t = true -> ~ In t (map left_of R).
Proof.
  intros HR Q I. apply in_map_iff in I as [r [E I]].
  rewrite Forall_forall in HR. destruct (is_right_some _ (HR _ I)) as [l G].
  rewrite (left_of_right _ _ G) in E. subst l.
  destruct (R2L_some _ _ G) as (_ & _ & Q' & _). congruence.
Qed.

(** A text scanned with the left counterparts of its unmatched closes already
    on the left stack leaves no close unmatched, and the same opens. *)
Lemma scan_preloaded (x : list str) :
  forall L L',
    Permutation L' (map left_of (snd (scan x (L, []))) ++ L) ->
    snd (scan x (L', [])) = [] /\
    Permutation (fst (scan x (L', []))) (fst (scan x (L, []))).
Proof.
  induction x as [|t x IH]; intros L L'.
  - simpl. intros P. split; [reflexivity | assumption].
  - rewrite !scan_cons.
    pose proof (scan_rights (t :: x) L [] (Forall_nil _)) as HR.
    rewrite scan_cons in HR. revert HR.
    destruct (scan_step_case L [] t) as [Q I|Q I|E Q|l G I|l G I|Q E G];
      intros HR P.
    + assert (I' : In t L').
      { apply Permutation_in with (1 := Permutation_sym P).
        apply in_or_app; right; assumption. }
      rewrite (step_case_fun L' [] t _ (close_quote _ _ _ Q I')).
      apply IH. apply list_remove_perm_inv; [assumption|].
      apply perm_trans with (1 := P).
      eapply perm_trans;
        [apply Permutation_app_head, list_remove_perm; eassumption
        | symmetry; apply Permutation_middle].
    + assert (I' : ~ In t L').
      { intros H. apply (Permutation_in _ P) in H.
        apply in_app_or in H as [H|H]; [|tauto].
        revert H. apply left_of_right_not_quote; assumption. }
      rewrite (step_case_fun L' [] t _ (open_quote _ _ _ Q I')).
      apply IH. apply perm_trans with (2 := Permutation_middle _ _ _).
      apply perm_skip; assumption.
    + rewrite (step_case_fun L' [] t _ (open_left _ _ _ E Q)).
      apply IH. apply perm_trans with (2 := Permutation_middle _ _ _).
      apply perm_skip; assumption.
    + assert (I' : In l L').
      { apply Permutation_in with (1 := Permutation_sym P).
        apply in_or_app; right; assumption. }
      rewrite (step_case_fun L' [] t _ (close_right _ _ _ l G I')).
      apply IH. apply list_remove_perm_inv; [assumption|].
      apply perm_trans with (1 := P).
      eapply perm_trans;
        [apply Permutation_app_head, list_remove_perm; eassumption
        | symmetry; apply Permutation_middle].
    + rewrite (scan_right x L [t]) in P |- *. cbn [fst snd] in P |- *.
      rewrite map_app in P. cbn [map] in P. rewrite (left_of_right _ _ G) in P.
      rewrite <- app_assoc in P. cbn [app] in P.
      assert (I' : In l L').
      { apply Permutation_in with (1 := Permutation_sym P).
        apply in_or_app; right; left; reflexivity. }
      rewrite (step_case_fun L' [] t _ (close_right _ _ _ l G I')).
      apply IH. apply list_remove_perm_inv; [assumption|].
      apply perm_trans with (1 := P). symmetry. apply Permutation_middle.
    + rewrite (step_case_fun L' [] t _ (skip_other _ _ _ Q E G)).
      apply IH. assumption.
Qed.

(** Scanning the right counterparts of a stack of opens empties that stack. *)
Lemma scan_rights_of (L : list str) :
  Forall opener L ->
  forall L', Permutation L' L -> scan (map right_of L) (L', []) = ([], []).
Proof.
  induction 1 as [|p L Hp HL IH]; intros L' P.
  - apply Permutation_sym, Permutation_nil in P. subst. reflexivity.
  - simpl map. rewrite scan_cons.
    assert (I : In p L').
    { apply Permutation_in with (1 := Permutation_sym P). left; reflexivity. }
    destruct Hp as [E|Q].
    + destruct (is_left_some _ E) as [r G].
      rewrite (right_of_left _ _ G).
      destruct (L2R_some _ _ G) as (G' & _).
      rewrite (step_case_fun L' [] r _ (close_right _ _ _ p G' I)).
      apply IH. apply list_remove_perm_inv; assumption.
    + rewrite (right_of_quote _ Q).
      rewrite (step_case_fun L' [] p _ (close_quote _ _ _ Q I)).
      apply IH. apply list_remove_perm_inv; assumption.
Qed.

Lemma lefts_of_rights (R : list str) :
  Forall (fun r => is_right r = true) R ->
  Forall (fun l => is_left l = true) (map left_of R).
Proof.
  induction 1 as [|r R Hr HR IH]; simpl; constructor; [|assumption].
  destruct (is_right_some _ Hr) as [l G]. rewrite (left_of_right _ _ G).
  apply (R2L_some _ _ G).
Qed.

(** The balancer finds nothing to repair in its own output. *)
Lemma scan_balanced (text : list str) :
  scan (balance_parentheses text) ([], []) = ([], []).
Proof.
  rewrite balance_parentheses_eq.
  pose proof (scan_rights text [] [] (Forall_nil _)) as HR.
  pose proof (scan_opens text [] [] (Forall_nil _)) as HL.
  rewrite !scan_app.
  rewrite (scan_lefts (rev (map left_of (snd (scan text ([], []))))))
    by (apply Forall_rev, lefts_of_rights; assumption).
  rewrite rev_involutive, app_nil_r.
  destruct (scan_preloaded text [] (map left_of (snd (scan text ([], [])))))
    as [E P].
  { rewrite app_nil_r. reflexivity. }
  destruct (scan text (map left_of (snd (scan text ([], []))), []))
    as [L' R'] eqn:S'. simpl in E, P. subst R'.
  apply scan_rights_of; assumption.
Qed.

(** ** Counting brackets through the scan *)

Lemma count_cons (t y : str) (l : list str) :
  count t (y :: l) = ((if str_eqb t y then 1 else 0) + count t l)%nat.
Proof. unfold count. simpl. destruct (str_eqb t y); reflexivity. Qed.

Lemma count_nil (t : str) : count t [] = 0%nat.
Proof. reflexivity. Qed.

Lemma count_app (t : str) (l l' : list str) :
  count t (l ++ l') = (count t l + count t l')%nat.
Proof. unfold count. rewrite filter_app. apply length_app. Qed.

Lemma count_perm (t : str) (l l' : list str) :
  Permutation l l' -> count t l = count t l'.
Proof.
  induction 1; rewrite ?count_cons; lia.
Qed.

Lemma count_remove (t p : str) (l : list str) :
  In p l ->
  ((if str_eqb t p then 1 else 0) + count t (list_remove p l) = count t l)%nat.
Proof.
  intros I. rewrite (count_perm t _ _ (list_remove_perm p l I)), count_cons.
  reflexivity.
Qed.

Lemma hit_eq (t : str) : hit t t = 1%nat.
Proof. unfold hit. rewrite str_eqb_refl. reflexivity. Qed.

Lemma hit_neq (t p : str) : t <> p -> hit t p = 0%nat.
Proof. unfold hit. intros H. apply str_eqb_neq in H. rewrite H. reflexivity. Qed.

(** Each iteration keeps, for a bracket pair [(l, r)], the balance between
    the tokens read and the entries waiting on the stacks. *)
Lemma scan_step_count (l r : str) (L R : list str) (t : str) :
  dict_get PAIRED_L2R l = Some r ->
  (count l (fst (scan_step (L, R) t)) + count r R + hit r t =
   count l L + count r (snd (scan_step (L, R) t)) + hit l t)%nat.
Proof.
  intros G.
  destruct (L2R_some _ _ G) as (G' & Rr & Ql & Lr & Qr & Gl).
  assert (Ll : is_left l = true) by (unfold is_left, dict_in; rewrite G; reflexivity).
  destruct (scan_step_case L R t) as [Q I|Q I|E Q|l0 G0 I|l0 G0 I|Q E G0];
    cbn [fst snd].
  - pose proof (count_remove l t L I) as C. fold (hit l t) in C.
    rewrite (hit_neq r t), (hit_neq l t) in * by congruence. lia.
  - rewrite count_cons. fold (hit l t).
    rewrite (hit_neq r t) by congruence. lia.
  - rewrite count_cons. fold (hit l t).
    rewrite (hit_neq r t) by congruence. lia.
  - destruct (R2L_some _ _ G0) as (G1 & _ & _ & Lt & Qt).
    pose proof (count_remove l l0 L I) as C. fold (hit l l0) in C.
    rewrite (hit_neq l t) by congruence.
    destruct (str_eqb r t) eqn:Ert.
    + apply str_eqb_eq in Ert. subst t.
      assert (l0 = l) by congruence. subst l0.
      rewrite !hit_eq in *. lia.
    + apply str_eqb_neq in Ert.
      assert (l <> l0) by (intros ->; congruence).
      rewrite (hit_neq r t), (hit_neq l l0) in * by assumption. lia.
  - destruct (R2L_some _ _ G0) as (G1 & _ & _ & Lt & Qt).
    rewrite count_cons. fold (hit r t).
    rewrite (hit_neq l t) by congruence. lia.
  - rewrite (hit_neq l t), (hit_neq r t) by congruence. lia.
Qed.

Lemma scan_count (l r : str) (x : list str) :
  dict_get PAIRED_L2R l = Some r ->
  forall L R,
    (count l (fst (scan x (L, R))) + count r R + count r x =
     count l L + count r (snd (scan x (L, R))) + count l x)%nat.
Proof.
  intros G. induction x as [|t x IH]; intros L R.
  - simpl. unfold count at 3 6. simpl. lia.
  - rewrite scan_cons. pose proof (scan_step_count l r L R t G) as C.
    destruct (scan_step (L, R) t) as [L1 R1]. cbn [fst snd] in C.
    specialize (IH L1 R1). rewrite !(count_cons _ t x).
    fold (hit r t) (hit l t). lia.
Qed.

(** A quote mark toggles its presence on the left stack. *)
Lemma scan_step_quote (q : str) (L R : list str) (t : str) :
  is_quote q = true ->
  Nat.even (count q (fst (scan_step (L, R) t)) + hit q t) =
  Nat.even (count q L).
Proof.
  intros Q.
  destruct (quote_not_bracket _ Q) as [Gl Gr].
  assert (Lq : is_left q = false) by (unfold is_left, dict_in; rewrite Gl; reflexivity).
  destruct (scan_step_case L R t) as [Qt I|Qt I|E Qt|l0 G0 I|l0 G0 I|Qt E G0];
    cbn [fst snd].
  - pose proof (count_remove q t L I) as C. fold (hit q t) in C.
    rewrite <- C. f_equal. lia.
  - rewrite count_cons. fold (hit q t). unfold hit.
    destruct (str_eqb q t); [|f_equal; lia].
    replace (1 + count q L + 1)%nat with (S (S (count q L))) by lia.
    reflexivity.
  - rewrite count_cons. fold (hit q t).
    rewrite (hit_neq q t) by congruence. f_equal. lia.
  - destruct (R2L_some _ _ G0) as (G1 & Ll0 & Ql0 & Lt & Qt).
    pose proof (count_remove q l0 L I) as C. fold (hit q l0) in C.
    rewrite (hit_neq q l0) in C by congruence.
    rewrite (hit_neq q t) by congruence. f_equal. lia.
  - destruct (R2L_some _ _ G0) as (G1 & Ll0 & Ql0 & Lt & Qt).
    rewrite (hit_neq q t) by congruence. f_equal. lia.
  - rewrite (hit_neq q t) by congruence. f_equal. lia.
Qed.

Lemma even_add_same (a b c : nat) :
  Nat.even a = Nat.even b -> Nat.even (a + c) = Nat.even (b + c).
Proof. intros H. rewrite !Nat.even_add, H. reflexivity. Qed.

Lemma scan_quote (q : str) (x : list str) :
  is_quote q = true ->
  forall L R,
    Nat.even (count q (fst (scan x (L, R))) + count q x) =
    Nat.even (count q L).
Proof.
  intros Q. induction x as [|t x IH]; intros L R.
  - simpl. unfold count at 2. simpl. f_equal. lia.
  - rewrite scan_cons. pose proof (scan_step_quote q L R t Q) as C.
    destruct (scan_step (L, R) t) as [L1 R1]. cbn [fst snd] in C.
    rewrite <- C, count_cons. fold (hit q t).
    replace (count q (fst (scan x (L1, R1))) + (hit q t + count q x))%nat
      with (count q (fst (scan x (L1, R1))) + count q x + hit q t)%nat by lia.
    apply even_add_same, IH.
Qed.

(** ** Results on [balance_parentheses] *)

Lemma rights_of_opens (L : list str) :
  Forall opener L ->
  Forall (fun s => is_right s = true \/ is_quote s = true) (map right_of L).
Proof.
  induction 1 as [|p L Hp HL IH]; simpl; constructor; [|assumption].
  destruct Hp as [E|Q].
  - destruct (is_left_some _ E) as [r G]. rewrite (right_of_left _ _ G).
    left. apply (L2R_some _ _ G).
  - rewrite (right_of_quote _ Q). right. assumption.
Qed.

(** C9.  The balancer only adds tokens around its input: the output is a list
    of left brackets, then the input tokens unchanged and in their order, then
    a list of right brackets and quote marks. *)
Theorem balance_parentheses_preserves_input (text : list str) :
  exists prefix suffix,
    balance_parentheses text = prefix ++ text ++ suffix /\
    Forall (fun l => is_left l = true) prefix /\
    Forall (fun s => is_right s = true \/ is_quote s = true) suffix.
Proof.
  exists (rev (map left_of (snd (scan text ([], []))))),
         (map right_of (fst (scan text ([], [])))).
  split; [apply balance_parentheses_eq|]. split.
  - apply Forall_rev, lefts_of_rights, scan_rights. constructor.
  - apply rights_of_opens, scan_opens. constructor.
Qed.

(** C4.  Balancing is idempotent: balancing an already balanced token list
    returns it unchanged. *)
Theorem balance_parentheses_idempotent (x : list str) :
  balance_parentheses (balance_parentheses x) = balance_parentheses x.
Proof.
  rewrite (balance_parentheses_eq (balance_parentheses x)).
  rewrite scan_balanced. simpl. apply app_nil_r.
Qed.

(** C5.  In the output of the balancer every bracket and quote has a partner
    of its family: scanning the output again leaves nothing unmatched on
    either stack; for each pair the left and the right bracket occur equally
    often, and in every initial segment of the output the right bracket occurs
    at most as often as the left one; each symmetric quote occurs an even
    number of times.  An unbalanced open and an unbalanced close are repaired
    as in the two scenarios. *)
Theorem balance_parentheses_partners :
  (forall text : list str,
      let out := balance_parentheses text in
      scan out ([], []) = ([], []) /\
      (forall l r, dict_get PAIRED_L2R l = Some r ->
                   count l out = count r out /\
                   forall p s, out = p ++ s -> (count r p <= count l p)%nat) /\
      (forall q, is_quote q = true -> Nat.even (count q out) = true)) /\
  balance_parentheses [u "("; u "пример"] = [u "("; u "пример"; u ")"] /\
  balance_parentheses [u "пример"; u ")"] = [u "("; u "пример"; u ")"].
Proof.
  split; [|split; reflexivity].
  intros text out. pose proof (scan_balanced text) as B. fold out in B.
  split; [assumption|]. split.
  - intros l r G. split.
    + pose proof (scan_count l r out G [] []) as C. rewrite B in C.
      cbn [fst snd] in C. rewrite !count_nil in C. lia.
    + intros p s E. rewrite E, scan_app in B.
      pose proof (scan_count l r p G [] []) as C.
      destruct (scan p ([], [])) as [Lp Rp]. cbn [fst snd] in *.
      rewrite (scan_right s Lp Rp) in B.
      apply (f_equal snd) in B. cbn [snd] in B.
      apply app_eq_nil in B as [_ ->].
      rewrite !count_nil in C. lia.
  - intros q Q. pose proof (scan_quote q out Q [] []) as C.
    rewrite B in C. cbn [fst] in C. rewrite count_nil in C. exact C.
Qed.

(** C6.  Repair order.  Both stacks are pushed at the head, so they list
    their entries most recent first, and both repair loops walk their stack
    from the head: the left counterparts of the unmatched closes are prepended
    one by one, most recent unmatched close first (so the oldest ends up
    leftmost), and the right counterparts of the unmatched opens are appended
    one by one, most recent unmatched open first. *)
Theorem balance_parentheses_repair_order :
  (forall text : list str,
      let left_stack := fst (scan text ([], [])) in
      let right_stack := snd (scan text ([], [])) in
      balance_parentheses text =
        fold_left (fun acc p => acc ++ [right_of p]) left_stack
          (fold_left (fun acc p => left_of p :: acc) right_stack text) /\
      balance_parentheses text =
        rev (map left_of right_stack) ++ text ++ map right_of left_stack) /\
  (forall L R t,
      let st := scan_step (L, R) t in
      (snd st = R \/ snd st = t :: R) /\
      (fst st = L \/ fst st = t :: L \/ exists p, fst st = list_remove p L)) /\
  (forall x y : list str,
      snd (scan (x ++ y) ([], [])) =
      snd (scan y (fst (scan x ([], [])), [])) ++ snd (scan x ([], []))) /\
  balance_parentheses [u ")"; u "]"] = [u "("; u "["; u ")"; u "]"] /\
  balance_parentheses [u "("; u "["] = [u "("; u "["; u "]"; u ")"].
Proof.
  split; [|split; [|split; [|split; reflexivity]]].
  - intros text left_stack right_stack. split.
    + unfold balance_parentheses, left_stack, right_stack.
      destruct (scan text ([], [])) as [L R]. reflexivity.
    + apply balance_parentheses_eq.
  - intros L R t st. unfold st.
    destruct (scan_step_case L R t); cbn [fst snd]; split; eauto 6.
  - intros x y. rewrite scan_app.
    destruct (scan x ([], [])) as [L R]. rewrite scan_right. reflexivity.
Qed.

(** ** Results on [detokenize] *)

Lemma left_not_glued (l : str) : dict_in PAIRED_L2R l = true -> glued l = false.
Proof.
  intros H. apply is_left_some in H as [r G]. revert G.
  unfold glued, dict_in. cbn.
  intros H; case_key l; inversion H; subst; reflexivity.
Qed.

Lemma in_punct_set_glued (token : str) :
  in_punct_set token = true -> glued token = true.
Proof.
  unfold in_punct_set, list_in, glued. cbn. intros H.
  case_key token; try reflexivity; discriminate.
Qed.

Lemma last_word_snoc (before : list str) (t : str) :
  last_word (before ++ [t]) = if glued t then last_word before else Some t.
Proof.
  unfold last_word. rewrite rev_app_distr. simpl.
  destruct (glued t); reflexivity.
Qed.

Lemma flag_after_snoc (before : list str) (t : str) :
  flag_after (before ++ [t]) =
  if glued t then flag_after before
  else if dict_in PAIRED_L2R t then [] else u " ".
Proof.
  unfold flag_after. rewrite last_word_snoc. destruct (glued t); reflexivity.
Qed.

Lemma detok_step_flag (before out : list str) (t : str) :
  detok_step (out, flag_after before) t =
  (out ++ [sep_before before t ++ t], flag_after (before ++ [t])).
Proof.
  unfold detok_step, sep_before. fold (glued t). rewrite flag_after_snoc.
  destruct (glued t); reflexivity.
Qed.

(** The loop of [detokenize] started in the middle of a text. *)
Lemma detok_loop (text : list str) :
  forall before out,
    fold_left detok_step text (out, flag_after before) =
    (out ++ pieces before text, flag_after (before ++ text)).
Proof.
  induction text as [|t text IH]; intros before out.
  - simpl. rewrite !app_nil_r. reflexivity.
  - cbn [fold_left pieces]. rewrite detok_step_flag, IH.
    rewrite <- !app_assoc. reflexivity.
Qed.

Lemma detokenize_pieces (text : list str) :
  detokenize text = concat (pieces [] text).
Proof.
  unfold detokenize.
  change (fold_left detok_step text ([], []))
    with (fold_left detok_step text ([], flag_after [])).
  rewrite detok_loop. reflexivity.
Qed.

(** C7, counterexample.  After a leading comma, or after a right bracket
    that follows a left one, the flag is still empty, so the next word is
    attached, where the rule as worded resets the flag to a single space. *)
Lemma detokenize_flag_kept_after_punctuation :
  detokenize [u ","; u "a"] = u ",a" /\
  detokenize_spec [u ","; u "a"] = u ", a" /\
  detokenize [u "("; u ")"; u "a"] = u "()a" /\
  detokenize_spec [u "("; u ")"; u "a"] = u "() a".
Proof. repeat split; reflexivity. Qed.

(** C7, as amended.  [detokenize] concatenates the tokens, each preceded by
    the separator [sep_before] computes from the tokens before it.  No space
    is written before a token the first branch of the loop takes (each of the
    eight punctuation marks and each right bracket is one), and none right
    after a left bracket.  The flag for the next separator is empty at the
    start, is reset to empty after a left bracket and to a single space after
    any other token of the second branch, and is left as it was by a token of
    the first branch. *)
Theorem detokenize_separators :
  (forall text, detokenize text = concat (pieces [] text)) /\
  (forall token,
      in_punct_set token = true \/ dict_in PAIRED_R2L token = true ->
      glued token = true) /\
  (forall before token, glued token = true -> sep_before before token = []) /\
  (forall before l token,
      dict_in PAIRED_L2R l = true -> sep_before (before ++ [l]) token = []) /\
  (forall before w token,
      glued w = false -> dict_in PAIRED_L2R w = false -> glued token = false ->
      sep_before (before ++ [w]) token = u " ") /\
  (forall before g token,
      glued g = true ->
      sep_before (before ++ [g]) token = sep_before before token) /\
  (forall token, sep_before [] token = []).
Proof.
  split; [exact detokenize_pieces|].
  split.
  { intros token [H|H]; [apply in_punct_set_glued; assumption|].
    unfold glued. rewrite H. apply orb_true_r. }
  split.
  { intros before token G. unfold sep_before. rewrite G. reflexivity. }
  split.
  { intros before l token H. unfold sep_before.
    rewrite flag_after_snoc, (left_not_glued _ H), H.
    destruct (glued token); reflexivity. }
  split.
  { intros before w token Gw Lw Gt. unfold sep_before.
    rewrite Gt, flag_after_snoc, Gw, Lw. reflexivity. }
  split.
  { intros before g token G. unfold sep_before.
    rewrite flag_after_snoc, G. reflexivity. }
  intros token. unfold sep_before. destruct (glued token); reflexivity.
Qed.

(** ** Results on [process] *)

Lemma concat_nil_Forall (l : list str) :
  concat l = [] <-> Forall (fun s => s = []) l.
Proof.
  induction l as [|s l IH]; simpl.
  - split; [constructor | reflexivity].
  - split.
    + intros H. apply app_eq_nil in H as [-> H]. constructor; [reflexivity|].
      apply IH; assumption.
    + intros H. inversion H; subst. simpl. apply IH; assumption.
Qed.

Lemma pieces_nil (text : list str) :
  forall before,
    Forall (fun s => s = []) (pieces before text) <->
    Forall (fun t => t = []) text.
Proof.
  induction text as [|t text IH]; intros before; simpl.
  - split; constructor.
  - split; intros H; inversion H as [|? ? Ht Hr]; subst.
    + apply app_eq_nil in Ht as [_ ->]. constructor; [reflexivity|].
      apply (IH (before ++ [[]])); assumption.
    + constructor; [|apply IH; assumption].
      unfold sep_before. reflexivity.
Qed.

(** The detokenised text is empty exactly when every token is empty. *)
Lemma detokenize_nil (text : list str) :
  detokenize text = [] <-> Forall (fun t => t = []) text.
Proof.
  rewrite detokenize_pieces, concat_nil_Forall. apply pieces_nil.
Qed.

Lemma scan_empty_tokens (text : list str) :
  Forall (fun t => t = []) text ->
  forall st, scan text st = st.
Proof.
  induction 1 as [|t text Ht Hr IH]; intros [L R]; [reflexivity|].
  subst t. rewrite scan_cons.
  rewrite (step_case_fun L R [] (L, R)); [apply IH|].
  apply skip_other; reflexivity.
Qed.

Lemma balance_detokenize_nil (text : list str) :
  detokenize (balance_parentheses text) = [] <->
  Forall (fun t => t = []) text.
Proof.
  rewrite detokenize_nil. split; intros H.
  - rewrite balance_parentheses_eq in H.
    apply Forall_app in H as [_ H]. apply Forall_app in H as [H _]. exact H.
  - rewrite balance_parentheses_eq, (scan_empty_tokens text H).
    simpl. rewrite app_nil_r. exact H.
Qed.

(** ** Results on [inflect] *)

Lemma select_parse_first_match (pos : list str) (parses : list Parse) :
  forall parse p,
    find (fun p => pos_matches p pos) parses = Some p ->
    select_parse parse parses pos = p.
Proof.
  induction parses as [|q parses IH]; intros parse p; simpl; [discriminate|].
  destruct (pos_matches q pos); [congruence | apply IH].
Qed.

Lemma last_cons_default (l : list Parse) :
  forall p a b, last (p :: l) a = last (p :: l) b.
Proof.
  induction l as [|q l IH]; intros p a b; [reflexivity|].
  change (last (q :: l) a = last (q :: l) b). apply IH.
Qed.

Lemma select_parse_no_match (pos : list str) (parses : list Parse) :
  forall parse,
    find (fun p => pos_matches p pos) parses = None ->
    select_parse parse parses pos = last parses parse.
Proof.
  induction parses as [|q parses IH]; intros parse; simpl; [reflexivity|].
  destruct (pos_matches q pos); [discriminate|].
  intros H. rewrite (IH q H).
  destruct parses as [|p parses]; [reflexivity | apply last_cons_default].
Qed.

Lemma pos_matches_no_prefix (p : Parse) : pos_matches p [] = false.
Proof. unfold pos_matches. destruct (POS p) as [[|c s]|]; reflexivity. Qed.

Lemma inflect_eq (morph_parse : str -> list Parse)
                 (token : str) (pos grammemes : list str) :
  inflect morph_parse token pos grammemes =
  match morph_parse token with
  | [] => None
  | parse0 :: _ =>
    Some (match inflect_word (select_parse parse0 (morph_parse token) pos)
                             grammemes with
          | Some word => word
          | None => token
          end)
  end.
Proof.
  unfold inflect. destruct (morph_parse token) as [|parse0 rest]; [reflexivity|].
  destruct (inflect_word _ grammemes); reflexivity.
Qed.

(** C3.  What [inflect] does with the parses of a word.  The first parse
    whose part of speech starts with one of the prefixes is chosen, and a
    chosen parse without a form for the grammemes gives the token back; but
    when no parse matches, the parse used is the last one of the list, not
    the first: with an analyser that answers with a numeral and a verb, and
    no prefix asked for, the verb is inflected. *)
Theorem inflect_falls_back_to_last_parse :
  (forall morph_parse token pos grammemes p,
      find (fun p => pos_matches p pos) (morph_parse token) = Some p ->
      inflect morph_parse token pos grammemes =
      Some (match inflect_word p grammemes with
            | Some word => word
            | None => token
            end)) /\
  (forall morph_parse token pos grammemes parse0 rest,
      morph_parse token = parse0 :: rest ->
      find (fun p => pos_matches p pos) (parse0 :: rest) = None ->
      inflect morph_parse token pos grammemes =
      Some (match inflect_word (last rest parse0) grammemes with
            | Some word => word
            | None => token
            end)) /\
  inflect two_parse_morph (u "w") [] [u "nomn"] = Some (u "last") /\
  inflect_word (hd (Build_Parse None (fun _ => None)) (two_parse_morph (u "w")))
               [u "nomn"] = Some (u "first").
Proof.
  split; [|split; [|split; reflexivity]].
  - intros morph_parse token pos grammemes p F. rewrite inflect_eq.
    destruct (morph_parse token) as [|parse0 rest] eqn:E; [discriminate|].
    rewrite (select_parse_first_match pos _ parse0 p F). reflexivity.
  - intros morph_parse token pos grammemes parse0 rest E F.
    rewrite inflect_eq, E.
    rewrite (select_parse_no_match pos _ parse0 F).
    destruct rest; reflexivity.
Qed.

(** ** Results on the grouping loop of [extract_aspects] *)

Lemma prev_label_at_S (pre rest : list (str * str)) (tok label : str) :
  prev_label_at (pre ++ (tok, label) :: rest) (S (List.length pre)) = label.
Proof.
  unfold prev_label_at. simpl. rewrite Nat.sub_0_r.
  rewrite nth_middle. reflexivity.
Qed.

Lemma decode_loop_from (rest : list (str * str)) :
  forall pre acc,
    fold_left (decode_step (pre ++ rest))
              (combine (seq (List.length pre) (List.length rest)) rest) acc =
    decode_from (prev_label_at (pre ++ rest) (List.length pre)) rest acc.
Proof.
  induction rest as [|[tok label] rest IH]; intros pre acc; [reflexivity|].
  cbn [List.length seq combine fold_left decode_from decode_step].
  specialize (IH (pre ++ [(tok, label)])).
  rewrite <- app_assoc, length_app, Nat.add_1_r in IH. cbn [app] in IH.
  rewrite IH, prev_label_at_S. reflexivity.
Qed.

Lemma decode_eq (result : list (str * str)) :
  decode result = decode_from [] result (Some []).
Proof. exact (decode_loop_from result [] (Some [])). Qed.

Lemma last_cons (l : list str) :
  forall a d, last (a :: l) d = last l a.
Proof.
  induction l as [|x l IH]; intros a d; [reflexivity|].
  change (last (x :: l) d = last (x :: l) a). rewrite !IH. reflexivity.
Qed.

Lemma decode_from_app (pre rest : list (str * str)) :
  forall prev acc,
    decode_from prev (pre ++ rest) acc =
    decode_from (last (map snd pre) prev) rest (decode_from prev pre acc).
Proof.
  induction pre as [|[tok label] pre IH]; intros prev acc; [reflexivity|].
  cbn [app decode_from map]. rewrite IH, last_cons. reflexivity.
Qed.

(** C10.  A token whose split label holds the entry [O] is assigned to no
    category: wherever it stands, its iteration leaves the collection as it
    was, so a sequence ending in such a token decodes as the sequence
    without it. *)
Theorem sentinel_label_assigns_no_category (cur_token cur_label : str) :
  list_in (u "O") (split 124 cur_label) = true ->
  (forall result acc n,
      decode_step result acc (n, (cur_token, cur_label)) = acc) /\
  (forall pre, decode (pre ++ [(cur_token, cur_label)]) = decode pre).
Proof.
  intros H.
  assert (E : aspects_for_token cur_label = [])
    by (unfold aspects_for_token; rewrite H; reflexivity).
  split.
  - intros result acc n. unfold decode_step. rewrite E. reflexivity.
  - intros pre. rewrite !decode_eq, decode_from_app. cbn [decode_from].
    rewrite E. reflexivity.
Qed.

(** The label [Method|O] holds the entry [O] beside a category. *)
Lemma sentinel_label_assigns_no_category_witness :
  decode ([(u "a", u "Method")] ++ [(u "b", u "Method|O")]) =
  decode [(u "a", u "Method")].
Proof.
  exact (proj2 (sentinel_label_assigns_no_category (u "b") (u "Method|O")
                  eq_refl)
               [(u "a", u "Method")]).
Defined.

(** ** The continuation law between labels of the wire format *)

(** Where the raw previous label and the previous label set answer alike, the
    loop is the loop of the law. *)
Lemma add_tokens_agree (prev_label : str) (prev_set : list str)
                       (cur_token : str) (aspects : list str) :
  (forall c, In c aspects -> str_in c prev_label = list_in c prev_set) ->
  forall acc,
    add_tokens prev_label cur_token aspects acc =
    add_tokens_spec prev_set cur_token aspects acc.
Proof.
  unfold add_tokens, add_tokens_spec.
  induction aspects as [|c aspects IH]; intros A acc; [reflexivity|].
  cbn [fold_left]. rewrite IH by (intros c' I; apply A; right; assumption).
  f_equal. destruct acc as [ea|]; [|reflexivity].
  unfold add_token, add_token_spec. rewrite (A c) by (left; reflexivity).
  reflexivity.
Qed.

Lemma decode_from_agree (rest : list (str * str)) :
  forall prev_label prev_set acc,
    agree_chain prev_label prev_set rest ->
    decode_from prev_label rest acc = decode_spec_from prev_set rest acc.
Proof.
  induction rest as [|[tok label] rest IH]; intros prev_label prev_set acc;
    [reflexivity|].
  intros [A C]. cbn [decode_from decode_spec_from].
  rewrite (add_tokens_agree prev_label prev_set) by exact A.
  apply IH; assumption.
Qed.

(** *** The law never lacks an open span *)

Lemma dict_get_set {V} (d : dict V) (k k' : str) (v : V) :
  dict_get (dict_set d k v) k' = if str_eqb k' k then Some v else dict_get d k'.
Proof.
  induction d as [|[k0 v0] d IH]; simpl.
  - destruct (str_eqb k' k); reflexivity.
  - destruct (str_eqb k k0) eqn:E; simpl.
    + apply str_eqb_eq in E. subst k0. destruct (str_eqb k' k); reflexivity.
    + rewrite IH. destruct (str_eqb k' k0) eqn:E'; [|reflexivity].
      apply str_eqb_eq in E'. subst k0.
      destruct (str_eqb k' k) eqn:E''; [|reflexivity].
      apply str_eqb_eq in E''. subst k'. rewrite str_eqb_refl in E.
      discriminate.
Qed.

Lemma append_to_last_some (spans : list (list str)) (token : str) :
  spans <> [] ->
  exists spans', append_to_last spans token = Some spans' /\ spans' <> [].
Proof.
  induction spans as [|span spans IH]; intros N; [congruence|].
  destruct spans as [|span' spans].
  - simpl. eexists; split; [reflexivity | discriminate].
  - destruct IH as [spans' [E N']]; [discriminate|].
    change (append_to_last (span :: span' :: spans) token)
      with (match append_to_last (span' :: spans) token with
            | Some spans'' => Some (span :: spans'')
            | None => None
            end).
    rewrite E. eexists; split; [reflexivity | discriminate].
Qed.

Lemma open_keys_set (spans_of : dict (list (list str))) (keys : list str)
                    (k : str) (spans : list (list str)) :
  open_keys spans_of keys -> spans <> [] ->
  open_keys (dict_set spans_of k spans) (k :: keys).
Proof.
  intros O N c I. unfold dict_get_default. rewrite dict_get_set.
  destruct (str_eqb c k) eqn:E; [assumption|].
  destruct I as [<-|I]; [rewrite str_eqb_refl in E; discriminate|].
  apply O; assumption.
Qed.

Lemma add_token_spec_open (prev_set : list str) (cur_token : str)
                          (spans_of : dict (list (list str)))
                          (keys : list str) (c : str) :
  open_keys spans_of keys -> (forall k, In k prev_set -> In k keys) ->
  exists spans_of',
    add_token_spec prev_set cur_token spans_of c = Some spans_of' /\
    open_keys spans_of' (c :: keys).
Proof.
  intros O S. unfold add_token_spec.
  destruct (list_in c prev_set) eqn:I; cbn [negb].
  - apply list_in_In, S, O in I.
    destruct (append_to_last_some _ cur_token I) as [spans' [E N]].
    rewrite E. eexists; split; [reflexivity|]. apply open_keys_set; assumption.
  - set (d := dict_set spans_of c (dict_get_default spans_of c [] ++ [[]])).
    assert (O' : open_keys d (c :: keys)).
    { apply open_keys_set; [assumption|]. intros H.
      apply app_eq_nil in H as [_ H]. discriminate. }
    destruct (append_to_last_some _ cur_token (O' c (or_introl eq_refl)))
      as [spans' [E N]].
    rewrite E. eexists; split; [reflexivity|].
    intros k Ik. apply (open_keys_set d (c :: keys) c spans' O' N).
    right; assumption.
Qed.

Lemma add_tokens_spec_open (prev_set : list str) (cur_token : str)
                           (cur_set : list str) :
  forall spans_of keys,
    open_keys spans_of keys -> (forall k, In k prev_set -> In k keys) ->
    exists spans_of',
      add_tokens_spec prev_set cur_token cur_set (Some spans_of) =
        Some spans_of' /\
      open_keys spans_of' (rev cur_set ++ keys).
Proof.
  unfold add_tokens_spec.
  induction cur_set as [|c cur_set IH]; intros spans_of keys O S.
  - exists spans_of. split; [reflexivity | assumption].
  - cbn [fold_left].
    destruct (add_token_spec_open prev_set cur_token spans_of keys c O S)
      as [d [E O']].
    rewrite E.
    destruct (IH d (c :: keys) O') as [d' [E' O'']].
    { intros k I. right. apply S; assumption. }
    exists d'. split; [assumption|].
    cbn [rev]. rewrite <- app_assoc. exact O''.
Qed.

Lemma decode_spec_from_total (rest : list (str * str)) :
  forall prev_set spans_of,
    open_keys spans_of prev_set ->
    exists spans_of',
      decode_spec_from prev_set rest (Some spans_of) = Some spans_of'.
Proof.
  induction rest as [|[tok label] rest IH]; intros prev_set spans_of O.
  - exists spans_of. reflexivity.
  - cbn [decode_spec_from].
    destruct (add_tokens_spec_open prev_set tok (aspects_for_token label)
                spans_of prev_set O (fun k I => I)) as [d [E O']].
    rewrite E. apply IH.
    intros c I. apply O'. apply in_or_app. left. apply in_rev in I. exact I.
Qed.

(** *** Labels of the wire format *)

Lemma startswith_sep (sep : char) (c : str) :
  ~ In sep c ->
  forall a b, startswith (a ++ sep :: b) c = startswith a c.
Proof.
  induction c as [|p c IH]; intros N a b.
  - destruct a; reflexivity.
  - destruct a as [|x a]; simpl.
    + destruct (N.eqb_spec sep p) as [->|_]; [|reflexivity].
      exfalso. apply N. left. reflexivity.
    + rewrite IH; [reflexivity|]. intros I. apply N. right. assumption.
Qed.

Lemma str_in_unfold (c hay : str) :
  str_in c hay =
  startswith hay c || match hay with [] => false | _ :: hay' => str_in c hay' end.
Proof. destruct hay; reflexivity. Qed.

Lemma str_in_sep (sep : char) (c : str) :
  c <> [] -> ~ In sep c ->
  forall a b, str_in c (a ++ sep :: b) = str_in c a || str_in c b.
Proof.
  intros NE N a b. induction a as [|x a IH].
  - rewrite (str_in_unfold c ([] ++ sep :: b)), (str_in_unfold c []).
    rewrite (startswith_sep sep c N [] b). cbn [app].
    rewrite orb_false_r. reflexivity.
  - rewrite (str_in_unfold c ((x :: a) ++ sep :: b)), (str_in_unfold c (x :: a)).
    rewrite (startswith_sep sep c N (x :: a) b). cbn [app].
    rewrite IH, orb_assoc. reflexivity.
Qed.

Lemma split_no_sep (sep : char) (x : str) :
  ~ In sep x -> split sep x = [x].
Proof.
  induction x as [|c x IH]; intros N; [reflexivity|].
  simpl. destruct (N.eqb_spec c sep) as [->|_].
  - exfalso. apply N. left. reflexivity.
  - rewrite IH; [reflexivity|]. intros I. apply N. right. assumption.
Qed.

Lemma split_app_sep (sep : char) (x s : str) :
  ~ In sep x -> split sep (x ++ sep :: s) = x :: split sep s.
Proof.
  induction x as [|c x IH]; intros N.
  - simpl. rewrite N.eqb_refl. reflexivity.
  - simpl. destruct (N.eqb_spec c sep) as [->|_].
    + exfalso. apply N. left. reflexivity.
    + rewrite IH; [reflexivity|]. intros I. apply N. right. assumption.
Qed.

Lemma split_join (sep : char) (cats : list str) :
  cats <> [] -> (forall c, In c cats -> ~ In sep c) ->
  split sep (join sep cats) = cats.
Proof.
  induction cats as [|x cats IH]; intros NE N; [congruence|].
  destruct cats as [|y cats].
  - apply split_no_sep, N. left. reflexivity.
  - change (join sep (x :: y :: cats)) with (x ++ sep :: join sep (y :: cats)).
    rewrite split_app_sep by (apply N; left; reflexivity).
    rewrite IH; [reflexivity | discriminate |].
    intros c I. apply N. right. assumption.
Qed.

(** What the four categories of the vocabulary are like: none is empty, holds
    the delimiter, occurs in the sentinel or is the sentinel, and none is
    written inside another. *)
Lemma vocabulary_facts (c : str) :
  In c ASPECTS_LIST ->
  c <> [] /\ ~ In 124 c /\ str_in c (u "O") = false /\
  str_eqb (u "O") c = false /\
  forall x, In x ASPECTS_LIST -> str_in c x = str_eqb c x.
Proof.
  intros I.
  assert (H : forallb (fun c =>
                negb (str_eqb c []) && negb (existsb (N.eqb 124) c) &&
                negb (str_in c (u "O")) && negb (str_eqb (u "O") c) &&
                forallb (fun x => Bool.eqb (str_in c x) (str_eqb c x))
                        ASPECTS_LIST) ASPECTS_LIST = true) by reflexivity.
  rewrite forallb_forall in H. specialize (H c I).
  rewrite !andb_true_iff, !negb_true_iff in H.
  destruct H as [[[[H1 H2] H3] H4] H5].
  split; [apply str_eqb_neq; assumption|].
  split.
  { intros J. assert (E : existsb (N.eqb 124) c = true).
    { apply existsb_exists. exists 124. split; [assumption | apply N.eqb_refl]. }
    congruence. }
  split; [assumption|]. split; [assumption|].
  intros x J. rewrite forallb_forall in H5. apply eqb_prop, H5, J.
Qed.

Lemma str_in_join (c : str) (cats : list str) :
  In c ASPECTS_LIST -> (forall x, In x cats -> In x ASPECTS_LIST) ->
  str_in c (join 124 cats) = list_in c cats.
Proof.
  intros I. destruct (vocabulary_facts c I) as (NE & N & _ & _ & T).
  induction cats as [|x cats IH]; intros S.
  - destruct c; [congruence | reflexivity].
  - destruct cats as [|y cats].
    + cbn [join list_in existsb]. rewrite orb_false_r. apply T, S.
      left. reflexivity.
    + change (join 124 (x :: y :: cats))
        with (x ++ 124 :: join 124 (y :: cats)).
      rewrite (str_in_sep 124 c NE N), IH
        by (intros z J; apply S; right; assumption).
      rewrite T by (apply S; left; reflexivity). reflexivity.
Qed.

Lemma aspects_for_token_join (cats : list str) :
  cats <> [] -> (forall x, In x cats -> In x ASPECTS_LIST) ->
  aspects_for_token (join 124 cats) = cats.
Proof.
  intros NE S. unfold aspects_for_token.
  rewrite split_join; [|assumption|].
  - assert (E : list_in (u "O") cats = false).
    { apply list_in_not_In. intros I.
      destruct (vocabulary_facts _ (S _ I)) as (_ & _ & _ & E & _).
      rewrite str_eqb_refl in E. discriminate. }
    rewrite E. reflexivity.
  - intros c I. apply (vocabulary_facts c), S, I.
Qed.

Lemma aspects_for_token_wf (label : str) :
  wf_label label ->
  forall c, In c (aspects_for_token label) -> In c ASPECTS_LIST.
Proof.
  intros [->|[cats (NE & S & ->)]] c I.
  - destruct I.
  - rewrite aspects_for_token_join in I by assumption. apply S, I.
Qed.

Lemma agree_wf (prev_label cur_label : str) :
  wf_label prev_label -> wf_label cur_label ->
  agree prev_label (aspects_for_token prev_label) cur_label.
Proof.
  intros [->|[cats (NE & S & ->)]] W c I;
    pose proof (aspects_for_token_wf _ W c I) as V.
  - apply (vocabulary_facts c V).
  - rewrite aspects_for_token_join by assumption.
    apply str_in_join; assumption.
Qed.

Lemma agree_first (cur_label : str) :
  wf_label cur_label -> agree [] [] cur_label.
Proof.
  intros W c I. pose proof (aspects_for_token_wf _ W c I) as V.
  destruct (vocabulary_facts c V) as (NE & _).
  destruct c; [congruence | reflexivity].
Qed.

Lemma agree_chain_wf (rest : list (str * str)) :
  forall prev_label,
    wf_label prev_label -> Forall wf_label (map snd rest) ->
    agree_chain prev_label (aspects_for_token prev_label) rest.
Proof.
  induction rest as [|[tok label] rest IH]; intros prev_label W F;
    [exact I|].
  inversion F as [|? ? Wl Fr]; subst. split.
  - apply agree_wf; assumption.
  - apply IH; assumption.
Qed.

(** Whatever the categories are, known or not: where the substring test on
    the raw previous label answers as membership in the previous label set,
    the loop of [extract_aspects] returns, and returns what the continuation
    law describes. *)
Lemma decode_agrees_with_law (result : list (str * str)) :
  agree_chain [] [] result ->
  exists spans_of,
    decode result = Some spans_of /\ decode_spec result = Some spans_of.
Proof.
  intros A.
  destruct (decode_spec_from_total result [] []) as [d E].
  { intros c []. }
  exists d. split; [|exact E].
  rewrite decode_eq, <- E. apply decode_from_agree, A.
Qed.

(** On labels of the wire format the loop of [extract_aspects] returns, and
    returns what the continuation law describes. *)
Lemma decode_follows_continuation_law (result : list (str * str)) :
  Forall wf_label (map snd result) ->
  exists spans_of,
    decode result = Some spans_of /\ decode_spec result = Some spans_of.
Proof.
  intros F. apply decode_agrees_with_law.
  destruct result as [|[tok label] rest]; [exact I|].
  inversion F as [|? ? Wl Fr]; subst. split.
  - apply agree_first; assumption.
  - apply agree_chain_wf; assumption.
Qed.

(** C1.  The scenario decodes as stated, and on labels of the wire format
    (the sentinel, or categories of the vocabulary joined by the delimiter)
    the loop returns what the continuation law describes.  But the loop looks
    for the category in the label of the previous token as a substring of the
    raw label, not in its label set: after a token labelled [Method|O], whose
    label set is empty, a token labelled [Method] starts no span; the loop
    raises when no span of [Method] exists, and appends the token to the last
    one, across the gap, when one does. *)
Theorem continuation_reads_raw_previous_label :
  decode [(u "Метод", u "Method"); (u ",", u "O"); (u "Подход", u "Method|Task")]
  = Some [(u "Method", [[u "Метод"]; [u "Подход"]]);
          (u "Task", [[u "Подход"]])] /\
  (forall result,
      Forall wf_label (map snd result) ->
      exists spans_of,
        decode result = Some spans_of /\ decode_spec result = Some spans_of) /\
  decode [(u "a", u "Method|O"); (u "b", u "Method")] = None /\
  decode_spec [(u "a", u "Method|O"); (u "b", u "Method")]
  = Some [(u "Method", [[u "b"]])] /\
  decode [(u "a", u "Method"); (u "b", u "Method|O"); (u "c", u "Method")]
  = Some [(u "Method", [[u "a"; u "c"]])] /\
  decode_spec [(u "a", u "Method"); (u "b", u "Method|O"); (u "c", u "Method")]
  = Some [(u "Method", [[u "a"]; [u "c"]])].
Proof.
  split; [reflexivity|]. split; [exact decode_follows_continuation_law|].
  repeat split; reflexivity.
Qed.

(** C2.  No label is checked against a vocabulary, and categories outside it
    are grouped as keys of their own wherever the substring test on the raw
    previous label answers as membership in its label set; but a category whose name is written
    inside the label of the previous token, as [Meth] is inside [Method], is
    taken to continue a span it never opened, and the loop raises, where the
    law starts a span for it. *)
Theorem unknown_category_inside_previous_label :
  decode [(u "a", u "Foo"); (u "b", u "Foo|Bar"); (u "c", u "O"); (u "d", u "Foo")]
  = Some [(u "Foo", [[u "a"; u "b"]; [u "d"]]); (u "Bar", [[u "b"]])] /\
  (forall result,
      agree_chain [] [] result ->
      exists spans_of,
        decode result = Some spans_of /\ decode_spec result = Some spans_of) /\
  decode [(u "a", u "Method"); (u "b", u "Meth")] = None /\
  decode_spec [(u "a", u "Method"); (u "b", u "Meth")]
  = Some [(u "Method", [[u "a"]]); (u "Meth", [[u "b"]])] /\
  (forall morph_parse syntax_parser do_normalize upper (Text : Type)
          (predictor_extract : Text -> list (str * str)) text,
      predictor_extract text = [(u "a", u "Method"); (u "b", u "Meth")] ->
      extract_aspects morph_parse syntax_parser do_normalize upper Text
                      predictor_extract text = None).
Proof.
  split; [reflexivity|]. split; [exact decode_agrees_with_law|].
  split; [reflexivity|]. split; [reflexivity|].
  intros morph_parse syntax_parser do_normalize upper Text predictor_extract
         text E.
  unfold extract_aspects. rewrite E. reflexivity.
Qed.

(** * Further properties *)

(** ** More on [balance_parentheses] *)

Lemma is_right_false (t : str) :
  is_right t = false -> dict_get PAIRED_R2L t = None.
Proof.
  unfold is_right, dict_in. destruct (dict_get PAIRED_R2L t);
    [discriminate | reflexivity].
Qed.

Lemma scan_plain (x : list str) :
  Forall plain x -> forall st, scan x st = st.
Proof.
  induction 1 as [|t x (E & G & Q) Hx IH]; intros [L R]; [reflexivity|].
  rewrite scan_cons.
  rewrite (step_case_fun L R t (L, R)); [apply IH|].
  apply skip_other; auto using is_right_false.
Qed.

(** The balancer returns its input unchanged exactly when its scan leaves
    nothing on either stack; a text without brackets and quote marks, the
    empty text among them, is such an input. *)
Theorem balance_parentheses_unchanged_iff :
  (forall x, balance_parentheses x = x <-> scan x ([], []) = ([], [])) /\
  (forall x, Forall plain x -> balance_parentheses x = x).
Proof.
  assert (A : forall x, scan x ([], []) = ([], []) -> balance_parentheses x = x).
  { intros x E. rewrite balance_parentheses_eq, E. simpl. apply app_nil_r. }
  split.
  - intros x. split; [|apply A].
    rewrite balance_parentheses_eq. intros E.
    apply (f_equal (@List.length str)) in E.
    rewrite !length_app, length_rev, !length_map in E.
    destruct (scan x ([], [])) as [[|l L] [|r R]]; simpl in E;
      try reflexivity; lia.
  - intros x H. apply A, scan_plain, H.
Qed.

Lemma length_list_remove (p : str) (l : list str) :
  (List.length (list_remove p l) <= List.length l)%nat.
Proof.
  induction l as [|y l IH]; simpl; [lia|].
  destruct (str_eqb p y); simpl; lia.
Qed.

Lemma scan_length (x : list str) :
  forall L R,
    (List.length (fst (scan x (L, R))) + List.length (snd (scan x (L, R)))
     <= List.length L + List.length R + List.length x)%nat.
Proof.
  induction x as [|t x IH]; intros L R; [simpl; lia|].
  rewrite scan_cons.
  destruct (scan_step_case L R t) as [Q I|Q I|E Q|l G I|l G I|Q E G];
    match goal with |- context [scan x (?a, ?b)] => specialize (IH a b) end;
    simpl in *;
    try (pose proof (length_list_remove t L));
    try (pose proof (length_list_remove l L)); lia.
Qed.

(** The balancer adds one token for each entry left on a stack, and never
    more tokens than its input has. *)
Theorem balance_parentheses_length (x : list str) :
  List.length (balance_parentheses x) =
    (List.length x + List.length (fst (scan x ([], [])))
     + List.length (snd (scan x ([], []))))%nat /\
  (List.length (balance_parentheses x) <= 2 * List.length x)%nat.
Proof.
  rewrite balance_parentheses_eq, !length_app, length_rev, !length_map.
  pose proof (scan_length x [] []) as B. simpl in B. lia.
Qed.

Lemma scan_opens_only (x : list str) :
  Forall (fun t => is_right t = false /\ is_quote t = false) x ->
  forall L R, scan x (L, R) = (rev (filter is_left x) ++ L, R).
Proof.
  induction 1 as [|t x (G & Q) Hx IH]; intros L R; [reflexivity|].
  rewrite scan_cons. cbn [filter]. destruct (is_left t) eqn:E.
  - rewrite (step_case_fun L R t (t :: L, R)) by (apply open_left; assumption).
    rewrite IH. cbn [rev]. rewrite <- app_assoc. reflexivity.
  - rewrite (step_case_fun L R t (L, R))
      by (apply skip_other; auto using is_right_false).
    apply IH.
Qed.

(** A text with left brackets but no right bracket and no quote mark gets
    the right counterparts of its left brackets appended in mirror order: the
    bracket opened last is closed first, so the repair is properly nested. *)
Theorem balance_parentheses_opens_only (x : list str) :
  Forall (fun t => is_right t = false /\ is_quote t = false) x ->
  balance_parentheses x = x ++ map right_of (rev (filter is_left x)).
Proof.
  intros H. rewrite balance_parentheses_eq, (scan_opens_only x H).
  simpl. rewrite app_nil_r. reflexivity.
Qed.

Lemma balance_parentheses_opens_only_witness :
  balance_parentheses [u "("; u "a"; u "["; u "«"] =
  [u "("; u "a"; u "["; u "«"] ++
  map right_of (rev (filter is_left [u "("; u "a"; u "["; u "«"])).
Proof.
  apply (balance_parentheses_opens_only [u "("; u "a"; u "["; u "«"]).
  repeat constructor.
Defined.

Lemma scan_closes_only (x : list str) :
  Forall (fun t => is_left t = false /\ is_quote t = false) x ->
  forall R, scan x ([], R) = ([], rev (filter is_right x) ++ R).
Proof.
  induction 1 as [|t x (E & Q) Hx IH]; intros R; [reflexivity|].
  rewrite scan_cons. cbn [filter]. destruct (is_right t) eqn:G.
  - destruct (is_right_some _ G) as [l Gl].
    rewrite (step_case_fun [] R t ([], t :: R))
      by (apply push_right with l; [assumption | intros []]).
    rewrite IH. cbn [rev]. rewrite <- app_assoc. reflexivity.
  - rewrite (step_case_fun [] R t ([], R))
      by (apply skip_other; auto using is_right_false).
    apply IH.
Qed.

(** A text with right brackets but no left bracket and no quote mark gets
    the left counterparts of its right brackets prepended in the order of the
    right brackets themselves: two unmatched closes of different pairs are
    repaired crossing, [( [ ) ]], not nested. *)
Theorem balance_parentheses_closes_only (x : list str) :
  Forall (fun t => is_left t = false /\ is_quote t = false) x ->
  balance_parentheses x = map left_of (filter is_right x) ++ x.
Proof.
  intros H. rewrite balance_parentheses_eq, (scan_closes_only x H []).
  cbn [fst snd map]. rewrite !app_nil_r, map_rev, rev_involutive. reflexivity.
Qed.

Lemma balance_parentheses_closes_only_witness :
  balance_parentheses [u "a"; u ")"; u "]"] =
  map left_of (filter is_right [u "a"; u ")"; u "]"]) ++ [u "a"; u ")"; u "]"].
Proof.
  apply (balance_parentheses_closes_only [u "a"; u ")"; u "]"]).
  repeat constructor.
Defined.

Lemma count_not_in (q : str) (l : list str) : ~ In q l -> count q l = 0%nat.
Proof.
  induction l as [|y l IH]; intros N; [reflexivity|].
  rewrite count_cons. rewrite IH by (intros I; apply N; right; assumption).
  destruct (str_eqb q y) eqn:E; [|reflexivity].
  apply str_eqb_eq in E. subst y. exfalso. apply N. left. reflexivity.
Qed.

(** A quote mark is on the left stack at most once. *)
Lemma scan_quote_once (q : str) (x : list str) :
  is_quote q = true ->
  forall L R,
    (count q L <= 1)%nat -> (count q (fst (scan x (L, R))) <= 1)%nat.
Proof.
  intros Q. induction x as [|t x IH]; intros L R B; [assumption|].
  rewrite scan_cons.
  destruct (scan_step_case L R t) as [Qt I|Qt I|E Qt|l G I|l G I|Qt E G];
    apply IH; try assumption.
  - pose proof (count_remove q t L I). lia.
  - rewrite count_cons. destruct (str_eqb q t) eqn:Eq.
    + apply str_eqb_eq in Eq. subst t. rewrite (count_not_in q L I). lia.
    + lia.
  - rewrite count_cons. destruct (str_eqb q t) eqn:Eq; [|lia].
    apply str_eqb_eq in Eq. subst t. congruence.
  - pose proof (count_remove q l L I). lia.
Qed.

Lemma count_right_of (q : str) (L : list str) :
  is_quote q = true -> Forall opener L ->
  count q (map right_of L) = count q L.
Proof.
  intros Q. induction 1 as [|p L Hp HL IH]; [reflexivity|].
  cbn [map]. rewrite !count_cons, IH. f_equal.
  destruct Hp as [E|Qp].
  - destruct (is_left_some _ E) as [r G]. rewrite (right_of_left _ _ G).
    destruct (L2R_some _ _ G) as (_ & _ & Ql & _ & Qr & _).
    fold (hit q r) (hit q p). rewrite !hit_neq; congruence.
  - rewrite (right_of_quote _ Qp). reflexivity.
Qed.

Lemma count_left_of (q : str) (R : list str) :
  is_quote q = true -> Forall (fun r => is_right r = true) R ->
  count q (map left_of R) = 0%nat.
Proof.
  intros Q HR. apply count_not_in.
  apply left_of_right_not_quote; assumption.
Qed.

(** Quote marks are paired by count: the balancer appends one quote mark
    when the text holds an odd number of them, and none when it holds an even
    number, wherever they stand among the brackets. *)
Theorem balance_parentheses_quotes (q : str) (x : list str) :
  is_quote q = true ->
  count q (balance_parentheses x) =
  (count q x + if Nat.even (count q x) then 0 else 1)%nat.
Proof.
  intros Q. rewrite balance_parentheses_eq, !count_app.
  pose proof (scan_rights x [] [] (Forall_nil _)) as HR.
  pose proof (scan_opens x [] [] (Forall_nil _)) as HL.
  rewrite (count_perm q _ _ (Permutation_sym (Permutation_rev _))).
  rewrite (count_left_of q _ Q HR), (count_right_of q _ Q HL).
  pose proof (scan_quote q x Q [] []) as P. rewrite count_nil in P.
  pose proof (scan_quote_once q x Q [] [] (Nat.le_0_l _)) as B.
  destruct (count q (fst (scan x ([], [])))) as [|[|n]]; [| |lia].
  - simpl in P. rewrite P. lia.
  - change (Nat.even (S (count q x)) = true) in P.
    rewrite Nat.even_succ, <- Nat.negb_even in P.
    destruct (Nat.even (count q x)); [discriminate | lia].
Qed.

Lemma balance_parentheses_quotes_witness :
  count [34] (balance_parentheses [[34]; u "a"; [34]; u "("; [34]]) = 4%nat.
Proof.
  exact (balance_parentheses_quotes [34] [[34]; u "a"; [34]; u "("; [34]]
           eq_refl).
Defined.

(** ** More on [detokenize] *)

Lemma sep_before_cases (before : list str) (token : str) :
  sep_before before token = [] \/
  (sep_before before token = [32] /\ glued token = false /\
   flag_after before = [32]).
Proof.
  unfold sep_before. destruct (glued token); [left; reflexivity|].
  unfold flag_after. destruct (last_word before) as [w|]; [|left; reflexivity].
  destruct (dict_in PAIRED_L2R w); [left; reflexivity|].
  right. repeat split; reflexivity.
Qed.

Lemma pieces_drop_spaces (text : list str) :
  forall before,
    filter not_space (concat (pieces before text)) =
    filter not_space (concat text).
Proof.
  induction text as [|t text IH]; intros before; [reflexivity|].
  cbn [pieces concat]. rewrite !filter_app, IH. f_equal. f_equal.
  destruct (sep_before_cases before t) as [-> | [-> _]]; reflexivity.
Qed.

Lemma pieces_length (text : list str) :
  forall before,
    text <> [] ->
    (List.length (concat (pieces before text)) +
     match flag_after before with [] => 1 | _ => 0 end
     <= List.length (concat text) + List.length text)%nat.
Proof.
  induction text as [|t text IH]; intros before NE; [congruence|].
  cbn [pieces concat List.length]. rewrite !length_app.
  assert (S : (List.length (sep_before before t) +
               match flag_after before with [] => 1 | _ => 0 end <= 1)%nat).
  { destruct (sep_before_cases before t) as [-> | (-> & _ & ->)]; simpl;
      [destruct (flag_after before); lia | lia]. }
  destruct text as [|t' text].
  - simpl. lia.
  - specialize (IH (before ++ [t])). 
    assert (IH' := IH ltac:(discriminate)). clear IH.
    destruct (flag_after (before ++ [t])); cbn [List.length] in *; lia.
Qed.

(** [detokenize] only inserts spaces, and fewer of them than there are
    tokens: without its spaces the result is the concatenation of the tokens
    without theirs, and its length exceeds the length of the concatenation by
    less than the number of tokens. *)
Theorem detokenize_inserts_only_spaces (text : list str) :
  filter not_space (detokenize text) = filter not_space (concat text) /\
  (List.length (concat text) <= List.length (detokenize text))%nat /\
  (List.length (detokenize text)
   <= List.length (concat text) + Nat.pred (List.length text))%nat.
Proof.
  rewrite detokenize_pieces. split; [apply pieces_drop_spaces|]. split.
  - generalize (@nil str). induction text as [|t text IH]; intros before;
      [simpl; lia|].
    cbn [pieces concat]. rewrite !length_app. specialize (IH (before ++ [t])).
    lia.
  - destruct text as [|t text]; [simpl; lia|].
    pose proof (pieces_length (t :: text) [] ltac:(discriminate)) as B.
    cbn [flag_after last_word rev find] in B. cbn [List.length Nat.pred] in *.
    lia.
Qed.

(** *** Spacing of the result *)

Lemma read_spaces_app (a b : str) :
  forall p,
    read_spaces p (a ++ b) =
    match read_spaces p a with
    | Some p' => read_spaces p' b
    | None => None
    end.
Proof.
  induction a as [|c a IH]; intros p; [reflexivity|].
  cbn [app read_spaces]. destruct (c =? 32); [destruct p|]; auto.
Qed.

Lemma read_spaces_word (t : str) :
  ~ In 32 t -> t <> [] -> forall p, read_spaces p t = Some false.
Proof.
  induction t as [|c t IH]; intros N NE p; [congruence|].
  cbn [read_spaces]. destruct (N.eqb_spec c 32) as [->|_].
  - exfalso. apply N. left. reflexivity.
  - destruct t as [|c' t]; [reflexivity|].
    apply IH; [|discriminate]. intros I. apply N. right. assumption.
Qed.

Lemma empty_glued : glued [] = true.
Proof. reflexivity. Qed.

Lemma flag_after_cases (before : list str) :
  flag_after before = [] \/ flag_after before = [32].
Proof.
  unfold flag_after. destruct (last_word before) as [w|]; [|left; reflexivity].
  destruct (dict_in PAIRED_L2R w); [left | right]; reflexivity.
Qed.

Lemma spaced_step (before : list str) (out t : str) :
  ~ In 32 t -> spaced before out ->
  spaced (before ++ [t]) (out ++ sep_before before t ++ t).
Proof.
  intros N [O F]. unfold spaced. rewrite flag_after_snoc.
  destruct t as [|c t].
  - rewrite empty_glued. unfold sep_before. rewrite empty_glued.
    cbn [app]. rewrite app_nil_r. split; assumption.
  - assert (W : forall p, read_spaces p (c :: t) = Some false)
      by (apply read_spaces_word; [assumption | discriminate]).
    assert (NE : out ++ sep_before before (c :: t) ++ c :: t <> []).
    { intros E. apply app_eq_nil in E as [_ E].
      apply app_eq_nil in E as [_ E]. discriminate. }
    split; [|intros _; exact NE]. right.
    destruct (sep_before_cases before (c :: t)) as [-> | (-> & G & Fl)].
    + cbn [app]. rewrite read_spaces_app.
      destruct O as [-> | ->]; [apply W | apply W].
    + specialize (F Fl). destruct O as [-> | O]; [congruence|].
      rewrite read_spaces_app, O.
      change (read_spaces true (c :: t) = Some false). apply W.
Qed.

Lemma spaced_pieces (text : list str) :
  Forall (fun t => ~ In 32 t) text ->
  forall before out,
    spaced before out ->
    spaced (before ++ text) (out ++ concat (pieces before text)).
Proof.
  induction 1 as [|t text Ht Hr IH]; intros before out S.
  - cbn [pieces concat]. rewrite !app_nil_r. assumption.
  - cbn [pieces concat].
    replace (before ++ t :: text) with ((before ++ [t]) ++ text)
      by (rewrite <- app_assoc; reflexivity).
    rewrite !app_assoc. rewrite <- (app_assoc out).
    apply IH. apply spaced_step; assumption.
Qed.

Lemma read_spaces_shape (s : str) :
  forall p q,
    read_spaces p s = Some q ->
    (p = true -> hd_error s <> Some 32) /\
    (s <> [] -> (last s 0 = 32 <-> q = true)) /\
    (forall a b, s <> a ++ 32 :: 32 :: b).
Proof.
  induction s as [|c s IH]; intros p q R.
  - split; [discriminate|]. split; [congruence|].
    intros [|? ?] b; discriminate.
  - cbn [read_spaces] in R. destruct (N.eqb_spec c 32) as [->|NE].
    + destruct p; [discriminate|].
      destruct (IH true q R) as (H1 & H2 & H3).
      split; [discriminate|]. split.
      * intros _. destruct s as [|c' s].
        -- simpl in R. inversion R. simpl. tauto.
        -- change (last (32 :: c' :: s) 0) with (last (c' :: s) 0).
           apply H2. discriminate.
      * intros [|x a] b E.
        -- cbn [app] in E. inversion E as [E']. 
           rewrite E' in H1. apply (H1 eq_refl). reflexivity.
        -- cbn [app] in E. inversion E. eapply H3. eassumption.
    + destruct (IH false q R) as (H1 & H2 & H3).
      split; [intros _ E; inversion E; congruence|]. split.
      * intros _. destruct s as [|c' s].
        -- simpl in R. inversion R. simpl. split; [congruence | discriminate].
        -- change (last (c :: c' :: s) 0) with (last (c' :: s) 0).
           apply H2. discriminate.
      * intros [|x a] b E.
        -- cbn [app] in E. inversion E. congruence.
        -- cbn [app] in E. inversion E. eapply H3. eassumption.
Qed.

(** When no token holds a space, the detokenised text does not begin with a
    space, does not end with one, and has no two spaces side by side. *)
Theorem detokenize_well_spaced (text : list str) :
  Forall (fun t => ~ In 32 t) text ->
  hd_error (detokenize text) <> Some 32 /\
  last (detokenize text) 0 <> 32 /\
  (forall a b, detokenize text <> a ++ 32 :: 32 :: b).
Proof.
  intros H. rewrite detokenize_pieces.
  destruct (spaced_pieces text H [] []) as [O _].
  { split; [left; reflexivity | discriminate]. }
  cbn [app] in O. destruct O as [-> | R].
  - split; [discriminate|]. split; [discriminate|].
    intros [|? ?] b; discriminate.
  - destruct (read_spaces_shape _ _ _ R) as (H1 & H2 & H3).
    split; [apply H1; reflexivity|]. split; [|exact H3].
    intros E. destruct (concat (pieces [] text)) as [|c s] eqn:Es;
      [discriminate|].
    apply H2 in E; [discriminate | discriminate].
Qed.

Lemma detokenize_well_spaced_witness :
  hd_error (detokenize [u ","; u "a"; u "("; u "b"; u ")"]) <> Some 32 /\
  last (detokenize [u ","; u "a"; u "("; u "b"; u ")"]) 0 <> 32 /\
  (forall a b,
      detokenize [u ","; u "a"; u "("; u "b"; u ")"] <> a ++ 32 :: 32 :: b).
Proof.
  apply (detokenize_well_spaced [u ","; u "a"; u "("; u "b"; u ")"]).
  repeat constructor; cbn; intros H;
    repeat (destruct H as [H|H]; [discriminate|]); exact H.
Defined.

(** ** On [get_noun_grammemes], [inflect] and [normalize] *)

(** [get_noun_grammemes] returns exactly one grammeme, and one the mapping
    knows: [plur] when the number of the token reads [Plur], and otherwise
    what the mapping gives for its gender, [masc] when it gives nothing. *)
Theorem get_noun_grammemes_single (token : Token) :
  exists g,
    get_noun_grammemes token = [g] /\
    In g (map snd GRAMMEME_MAPPING) /\
    (concat (morph_Number token) = u "Plur" -> g = u "plur") /\
    (concat (morph_Number token) <> u "Plur" ->
     g = dict_get_default GRAMMEME_MAPPING (concat (morph_Gender token))
                          (u "masc")).
Proof.
  unfold get_noun_grammemes.
  set (n := concat (morph_Number token)). set (g := concat (morph_Gender token)).
  assert (V : forall k d, In d (map snd GRAMMEME_MAPPING) ->
                          In (dict_get_default GRAMMEME_MAPPING k d)
                             (map snd GRAMMEME_MAPPING)).
  { intros k d D. unfold dict_get_default. cbn [GRAMMEME_MAPPING dict_get].
    case_key k; cbn; auto 10. }
  assert (P : str_eqb (dict_get_default GRAMMEME_MAPPING n (u "sing")) (u "plur")
              = str_eqb n (u "Plur")).
  { unfold dict_get_default. cbn [GRAMMEME_MAPPING dict_get].
    destruct (str_eqb n (u "Plur")) eqn:E.
    - apply str_eqb_eq in E. rewrite E. reflexivity.
    - case_key n; try reflexivity. discriminate. }
  rewrite P. destruct (str_eqb n (u "Plur")) eqn:E.
  - apply str_eqb_eq in E. eexists. split; [reflexivity|].
    rewrite E. split; [cbn; auto 10|]. split; [reflexivity | congruence].
  - apply str_eqb_neq in E. eexists. split; [reflexivity|].
    split; [apply V; cbn; auto 10|]. split; [congruence | reflexivity].
Qed.

Lemma select_parse_in (pos : list str) (parses : list Parse) :
  forall parse, In (select_parse parse parses pos) (parse :: parses).
Proof.
  induction parses as [|p parses IH]; intros parse; [left; reflexivity|].
  cbn [select_parse]. destruct (pos_matches p pos).
  - right. left. reflexivity.
  - destruct (IH p) as [E|I]; right; [left | right]; assumption.
Qed.

Lemma inflect_cases (morph_parse : str -> list Parse)
                     (token : str) (pos grammemes : list str) :
  (inflect morph_parse token pos grammemes = None <-> morph_parse token = []) /\
  (forall word,
      inflect morph_parse token pos grammemes = Some word ->
      word = token \/
      exists p, In p (morph_parse token) /\
                inflect_word p grammemes = Some word).
Proof.
  rewrite inflect_eq. destruct (morph_parse token) as [|parse0 rest] eqn:E.
  - split; [tauto | discriminate].
  - split; [split; discriminate|]. intros word H. inversion H as [H'].
    pose proof (select_parse_in pos (parse0 :: rest) parse0) as I.
    destruct (inflect_word _ grammemes) as [w|] eqn:F; [|left; reflexivity].
    right. exists (select_parse parse0 (parse0 :: rest) pos).
    split; [|assumption].
    destruct I as [<-|I]; [left; reflexivity | assumption].
Qed.

(** [inflect] raises exactly when the analyser has no parse for the word;
    what it returns is the word itself or a form that one of the parses of
    this word has for the grammemes asked for. *)
Theorem inflect_result (morph_parse : str -> list Parse)
                       (token : str) (pos grammemes : list str) :
  (inflect morph_parse token pos grammemes = None <-> morph_parse token = []) /\
  (forall word,
      inflect morph_parse token pos grammemes = Some word ->
      word = token \/
      exists p, In p (morph_parse token) /\
                inflect_word p grammemes = Some word).
Proof. apply inflect_cases. Qed.

Lemma mapM_Forall2 {A B} (f : A -> option B) (l : list A) :
  forall out, mapM f l = Some out -> Forall2 (fun a b => f a = Some b) l out.
Proof.
  induction l as [|a l IH]; intros out H; simpl in H.
  - inversion H. constructor.
  - destruct (f a) as [b|] eqn:E; [|discriminate].
    destruct (mapM f l) as [bs|]; [|discriminate].
    inversion H. constructor; [assumption | apply IH; reflexivity].
Qed.

Lemma mapM_total {A B} (f : A -> option B) (l : list A) :
  (forall a, In a l -> f a <> None) -> exists out, mapM f l = Some out.
Proof.
  induction l as [|a l IH]; intros H; [eexists; reflexivity|].
  simpl. destruct (f a) as [b|] eqn:E.
  - destruct IH as [bs ->]; [intros x I; apply H; right; assumption|].
    eexists; reflexivity.
  - exfalso. apply (H a); [left; reflexivity | assumption].
Qed.

Lemma mapM_none {A B} (f : A -> option B) (l : list A) :
  mapM f l = None <-> exists a, In a l /\ f a = None.
Proof.
  induction l as [|a l IH]; simpl.
  - split; [discriminate | intros (a & [] & _)].
  - destruct (f a) as [b|] eqn:E.
    + destruct (mapM f l) as [bs|].
      * split; [discriminate|]. intros (x & [<-|I] & N); [congruence|].
        assert (H : @None (list B) = None) by reflexivity.
        destruct IH as [_ IH]. discriminate IH. exists x. split; assumption.
      * split; [|reflexivity]. intros _.
        destruct IH as [IH _]. destruct (IH eq_refl) as (x & I & N).
        exists x. split; [right|]; assumption.
    + split; [|reflexivity]. intros _. exists a.
      split; [left; reflexivity | assumption].
Qed.

Lemma normalize_token_result (morph_parse : str -> list Parse)
      (doc : Doc) (root : Token) (grammemes : list str) (token : Token) :
  (normalize_token morph_parse doc root grammemes token = None <->
   inflected doc root token = true /\ morph_parse (text token) = []) /\
  (forall word,
      normalize_token morph_parse doc root grammemes token = Some word ->
      word = text token \/
      exists p g, In p (morph_parse (text token)) /\
                  inflect_word p g = Some word).
Proof.
  unfold normalize_token, inflected.
  assert (T : forall pos g,
             inflect morph_parse (text token) pos g = None <->
             true = true /\ morph_parse (text token) = []).
  { intros pos g. rewrite (proj1 (inflect_cases morph_parse _ pos g)). tauto. }
  assert (R : forall pos g word,
             inflect morph_parse (text token) pos g = Some word ->
             word = text token \/
             exists p g, In p (morph_parse (text token)) /\
                         inflect_word p g = Some word).
  { intros pos g word H. apply inflect_cases in H as [H|[p [I F]]];
      [left; assumption | right; eauto]. }
  destruct (str_eqb (dep_ token) (u "nummod")); cbn [orb];
    [split; [apply T | apply R]|].
  destruct (existsb _ (children doc token)); cbn [orb];
    [split; [apply T | apply R]|].
  destruct (Nat.eqb (i token) (i root)); cbn [orb];
    [split; [apply T | apply R]|].
  destruct (Nat.eqb (head token) (i root) && list_in (dep_ token) NOUN_DEP);
    [split; [apply T | apply R]|].
  split.
  - split; [discriminate | intros [H _]; discriminate].
  - intros word H. inversion H. left. reflexivity.
Qed.

(** When [normalize] raises: on an empty-string token, on an empty token
    list, and for a noun-headed phrase on a token handed to [inflect] for
    whose text the analyser has no parse. *)
Lemma normalize_raises (morph_parse : str -> list Parse)
                       (syntax_parser : list str -> Doc) (tokens : list str) :
  normalize morph_parse syntax_parser tokens = None <->
  In [] tokens \/ tokens = [] \/
  (pos_ (doc_root (syntax_parser tokens)) = u "NOUN" /\
   exists token,
     In token (doc_tokens (syntax_parser tokens)) /\
     inflected (syntax_parser tokens) (doc_root (syntax_parser tokens)) token
       = true /\
     morph_parse (text token) = []).
Proof.
  unfold normalize. destruct (list_in [] tokens) eqn:E.
  - apply list_in_In in E. tauto.
  - apply list_in_not_In in E. destruct tokens as [|t tokens]; [tauto|].
    destruct (str_eqb (pos_ (doc_root (syntax_parser (t :: tokens))))
                      (u "NOUN")) eqn:P.
    + apply str_eqb_eq in P. rewrite mapM_none. split.
      * intros (token & I & N). right. right. split; [assumption|].
        exists token. split; [assumption|].
        apply normalize_token_result in N. exact N.
      * intros [H|[H|(_ & token & I & N)]]; [contradiction | discriminate|].
        exists token. split; [assumption|].
        apply normalize_token_result. exact N.
    + apply str_eqb_neq in P. split; [discriminate|].
      intros [H|[H|(H & _)]]; [contradiction | discriminate | contradiction].
Qed.

Lemma normalize_cases (morph_parse : str -> list Parse)
                      (syntax_parser : list str -> Doc) (tokens : list str) :
  (forall word, morph_parse word <> []) ->
  tokens <> [] -> ~ In [] tokens ->
  exists out,
    normalize morph_parse syntax_parser tokens = Some out /\
    (pos_ (doc_root (syntax_parser tokens)) <> u "NOUN" -> out = tokens) /\
    (pos_ (doc_root (syntax_parser tokens)) = u "NOUN" ->
     Forall2 (fun token word =>
                word = text token \/
                exists p g, In p (morph_parse (text token)) /\
                            inflect_word p g = Some word)
             (doc_tokens (syntax_parser tokens)) out).
Proof.
  intros NE NN NI.
  destruct (normalize morph_parse syntax_parser tokens) as [out|] eqn:N.
  - exists out. split; [reflexivity|]. revert N. unfold normalize.
    apply list_in_not_In in NI. rewrite NI.
    destruct tokens as [|t tokens]; [congruence|].
    destruct (str_eqb (pos_ (doc_root (syntax_parser (t :: tokens))))
                      (u "NOUN")) eqn:E.
    + apply str_eqb_eq in E. intros M. split; [congruence|]. intros _.
      apply mapM_Forall2 in M. revert M. apply Forall2_impl.
      intros token word. apply normalize_token_result.
    + apply str_eqb_neq in E. intros M. inversion M.
      split; [reflexivity | congruence].
  - exfalso. apply normalize_raises in N.
    destruct N as [H|[H|(_ & token & _ & _ & H)]];
      [contradiction | contradiction | apply (NE _ H)].
Qed.

(** [normalize] returns for a token list that is not empty and holds no
    empty string whenever the analyser has a parse for every word.  For a
    phrase whose root is not a noun it returns its input; for a noun-headed
    phrase it returns one word for each token of the parsed document, and
    each word is the text of that token or a form that one of the parses of
    that text has: no word comes from anywhere else. *)
Theorem normalize_words (morph_parse : str -> list Parse)
                        (syntax_parser : list str -> Doc) (tokens : list str) :
  (forall word, morph_parse word <> []) ->
  tokens <> [] -> ~ In [] tokens ->
  exists out,
    normalize morph_parse syntax_parser tokens = Some out /\
    (pos_ (doc_root (syntax_parser tokens)) <> u "NOUN" -> out = tokens) /\
    (pos_ (doc_root (syntax_parser tokens)) = u "NOUN" ->
     Forall2 (fun token word =>
                word = text token \/
                exists p g, In p (morph_parse (text token)) /\
                            inflect_word p g = Some word)
             (doc_tokens (syntax_parser tokens)) out).
Proof. apply normalize_cases. Qed.

Lemma normalize_words_witness :
  exists out,
    normalize two_parse_morph adjective_noun [u "новых"; u "методов"] =
      Some out /\
    (pos_ (doc_root (adjective_noun [u "новых"; u "методов"])) <> u "NOUN" ->
     out = [u "новых"; u "методов"]) /\
    (pos_ (doc_root (adjective_noun [u "новых"; u "методов"])) = u "NOUN" ->
     Forall2 (fun token word =>
                word = text token \/
                exists p g, In p (two_parse_morph (text token)) /\
                            inflect_word p g = Some word)
             (doc_tokens (adjective_noun [u "новых"; u "методов"])) out).
Proof.
  apply (normalize_words two_parse_morph adjective_noun
                         [u "новых"; u "методов"]).
  - intros word. discriminate.
  - discriminate.
  - intros [H|[H|[]]]; discriminate.
Defined.



(** [normalize] raises exactly in three cases: one of the tokens is the
    empty string; the token list is empty; or the root is a noun and the
    analyser has no parse for the text of a token of one of the four
    inflected roles. *)
Theorem normalize_raises_iff (morph_parse : str -> list Parse)
                             (syntax_parser : list str -> Doc)
                             (tokens : list str) :
  normalize morph_parse syntax_parser tokens = None <->
  In [] tokens \/ tokens = [] \/
  (pos_ (doc_root (syntax_parser tokens)) = u "NOUN" /\
   exists token,
     In token (doc_tokens (syntax_parser tokens)) /\
     inflected (syntax_parser tokens) (doc_root (syntax_parser tokens)) token
       = true /\
     morph_parse (text token) = []).
Proof. apply normalize_raises. Qed.

(** ** [process] as a whole *)

(** C8, counterexample.  With normalisation enabled, [process] raises on a
    token list that holds an empty string, inside [normalize], although the
    balanced and detokenised form of the list is the non-empty string [a];
    with normalisation disabled it returns the capitalised string. *)
Lemma process_raises_in_normalize :
  process two_parse_morph adjective_noun true (fun c => [c - 32])
          [u "a"; []] = None /\
  detokenize (balance_parentheses [u "a"; []]) = u "a" /\
  process two_parse_morph adjective_noun false (fun c => [c - 32])
          [u "a"; []] = Some (u "A").
Proof. repeat split; reflexivity. Qed.

(** C8, as amended.  Let [tokens] be what reaches the balancer: the input,
    or its normalisation when that is enabled and returns, and [s] their
    balanced and detokenised form.  When [s] is the non-empty string
    [c :: rest], [process] returns the upper-cased first character followed
    by [rest] unchanged, and it raises when [s] is empty, which is when
    every token is the empty string.  [process] raises in these cases only:
    normalisation is enabled and raises, or [s] is empty.  Normalisation
    raises exactly on an empty-string token, on an empty token list, and,
    for a noun-headed phrase, on a token handed to [inflect] for whose text
    the analyser has no parse. *)
Theorem process_capitalizes
    (morph_parse : str -> list Parse) (syntax_parser : list str -> Doc)
    (do_normalize : bool) (upper : char -> str) (mention : list str) :
  (forall tokens,
      (if do_normalize then normalize morph_parse syntax_parser mention
       else Some mention) = Some tokens ->
      (forall c rest,
          detokenize (balance_parentheses tokens) = c :: rest ->
          process morph_parse syntax_parser do_normalize upper mention =
            Some (upper c ++ rest)) /\
      (process morph_parse syntax_parser do_normalize upper mention = None <->
       detokenize (balance_parentheses tokens) = []) /\
      (detokenize (balance_parentheses tokens) = [] <->
       Forall (fun t => t = []) tokens)) /\
  (process morph_parse syntax_parser do_normalize upper mention = None <->
   (do_normalize = true /\
    normalize morph_parse syntax_parser mention = None) \/
   (exists tokens,
       (if do_normalize then normalize morph_parse syntax_parser mention
        else Some mention) = Some tokens /\
       detokenize (balance_parentheses tokens) = [])) /\
  (normalize morph_parse syntax_parser mention = None <->
   In [] mention \/ mention = [] \/
   (pos_ (doc_root (syntax_parser mention)) = u "NOUN" /\
    exists token,
      In token (doc_tokens (syntax_parser mention)) /\
      inflected (syntax_parser mention) (doc_root (syntax_parser mention)) token
        = true /\
      morph_parse (text token) = [])).
Proof.
  split; [|split; [|apply normalize_raises]].
  - intros tokens N. unfold process. rewrite N. split; [|split].
    + intros c rest ->. reflexivity.
    + destruct (detokenize (balance_parentheses tokens)); split; congruence.
    + apply balance_detokenize_nil.
  - unfold process.
    destruct (if do_normalize then normalize morph_parse syntax_parser mention
              else Some mention) as [tokens|] eqn:N.
    + destruct (detokenize (balance_parentheses tokens)) as [|c rest] eqn:S.
      * split; [|reflexivity]. intros _. right. exists tokens.
        split; [reflexivity | assumption].
      * split; [discriminate|].
        intros [[D H]|(tokens' & E & S')].
        -- rewrite D in N. congruence.
        -- inversion E. subst tokens'. congruence.
    + split; [|reflexivity]. intros _. left.
      destruct do_normalize; [split; [reflexivity | assumption]|discriminate].
Qed.

(** A run with normalisation enabled: both words are inflected, the
    analyser writing every form of its last parse [last]. *)
Example process_with_normalisation :
  process two_parse_morph adjective_noun true (fun c => [c - 32])
          [u "новых"; u "методов"] = Some (u "Last last").
Proof. reflexivity. Qed.

Example normalize_raises_on_empty :
  normalize two_parse_morph adjective_noun [] = None /\
  normalize two_parse_morph adjective_noun [u "a"; []] = None.
Proof. split; reflexivity. Qed.

(** ** More on the grouping loop of [extract_aspects] *)

Lemma append_to_last_inv (spans : list (list str)) (token : str) :
  forall spans',
    append_to_last spans token = Some spans' ->
    exists init span,
      spans = init ++ [span] /\ spans' = init ++ [span ++ [token]].
Proof.
  induction spans as [|s spans IH]; intros spans' H; [discriminate|].
  destruct spans as [|s' spans].
  - inversion H. exists [], s. split; reflexivity.
  - change (append_to_last (s :: s' :: spans) token)
      with (match append_to_last (s' :: spans) token with
            | Some spans'' => Some (s :: spans'')
            | None => None
            end) in H.
    destruct (append_to_last (s' :: spans) token) as [spans''|] eqn:E;
      [|discriminate].
    inversion H. destruct (IH _ eq_refl) as (init & span & E1 & E2).
    exists (s :: init), span. rewrite E1, E2. split; reflexivity.
Qed.

Lemma dict_get_default_set {V} (d : dict V) (k k' : str) (v dflt : V) :
  dict_get_default (dict_set d k v) k' dflt =
  if str_eqb k' k then v else dict_get_default d k' dflt.
Proof.
  unfold dict_get_default. rewrite dict_get_set.
  destruct (str_eqb k' k); reflexivity.
Qed.

(** What one pass of the body of the inner loop does to the collection: the
    spans of the category get the token at their end, in a new span or in the
    last one, and nothing else changes. *)
Lemma add_token_inv (prev_label cur_token : str)
      (ea : dict (list (list str))) (aspect : str) :
  forall ea',
    add_token prev_label cur_token ea aspect = Some ea' ->
    exists d init span,
      ea' = dict_set d aspect (init ++ [span ++ [cur_token]]) /\
      (d = ea \/ d = dict_set ea aspect (dict_get_default ea aspect [] ++ [[]])) /\
      dict_get_default d aspect [] = init ++ [span] /\
      concat (init ++ [span]) = concat (dict_get_default ea aspect []).
Proof.
  intros ea'. unfold add_token.
  set (d := if negb (str_in aspect prev_label)
            then dict_set ea aspect (dict_get_default ea aspect [] ++ [[]])
            else ea).
  destruct (append_to_last (dict_get_default d aspect []) cur_token)
    as [spans|] eqn:E; [|discriminate].
  intros H. inversion H. subst ea'.
  destruct (append_to_last_inv _ _ _ E) as (init & span & E1 & E2).
  exists d, init, span. subst spans. split; [reflexivity|].
  split; [|split; [assumption|]].
  - unfold d. destruct (negb (str_in aspect prev_label)); [right | left];
      reflexivity.
  - rewrite <- E1. unfold d.
    destruct (negb (str_in aspect prev_label)); [|reflexivity].
    rewrite dict_get_default_set, str_eqb_refl, concat_app. simpl.
    apply app_nil_r.
Qed.

(** *** No empty span *)

Lemma spans_filled_set (d : dict (list (list str))) (k : str)
                       (spans : list (list str)) :
  spans_filled d -> spans <> [] -> Forall (fun span => span <> []) spans ->
  spans_filled (dict_set d k spans).
Proof.
  unfold spans_filled. intros F NE S.
  induction d as [|[k' v'] d IH]; simpl.
  - constructor; [split; assumption | constructor].
  - inversion F as [|? ? H Fd]; subst.
    destruct (str_eqb k k'); constructor; auto.
Qed.

Lemma dict_set_set {V} (d : dict V) (k : str) (v1 v2 : V) :
  dict_set (dict_set d k v1) k v2 = dict_set d k v2.
Proof.
  induction d as [|[k' v'] d IH]; simpl.
  - rewrite str_eqb_refl. reflexivity.
  - destruct (str_eqb k k') eqn:E; simpl; rewrite E; [reflexivity|].
    rewrite IH. reflexivity.
Qed.

Lemma spans_filled_get (d : dict (list (list str))) (k : str) :
  spans_filled d ->
  Forall (fun span => span <> []) (dict_get_default d k []).
Proof.
  unfold spans_filled, dict_get_default. intros F.
  induction d as [|[k' v'] d IH]; simpl; [constructor|].
  inversion F as [|? ? [_ H] Fd]; subst.
  destruct (str_eqb k k'); [assumption | apply IH; assumption].
Qed.

Lemma add_token_filled (prev_label cur_token : str)
      (ea : dict (list (list str))) (aspect : str) :
  forall ea',
    spans_filled ea ->
    add_token prev_label cur_token ea aspect = Some ea' ->
    spans_filled ea'.
Proof.
  intros ea' F H.
  destruct (add_token_inv _ _ _ _ _ H) as (d & init & span & -> & D & G & _).
  assert (I : Forall (fun s => s <> []) init).
  { destruct D as [->| ->].
    - pose proof (spans_filled_get ea aspect F) as S. rewrite G in S.
      apply Forall_app in S. apply S.
    - rewrite dict_get_default_set, str_eqb_refl in G.
      apply app_inj_tail in G as [<- _]. apply spans_filled_get, F. }
  assert (N : Forall (fun s => s <> []) (init ++ [span ++ [cur_token]])).
  { apply Forall_app. split; [assumption|]. constructor; [|constructor].
    intros E. apply app_eq_nil in E as [_ E]. discriminate. }
  assert (NE : init ++ [span ++ [cur_token]] <> []).
  { intros E. apply app_eq_nil in E as [_ E]. discriminate. }
  destruct D as [->| ->]; [|rewrite dict_set_set];
    apply spans_filled_set; assumption.
Qed.

Lemma add_tokens_none (prev_label cur_token : str) (aspects : list str) :
  add_tokens prev_label cur_token aspects None = None.
Proof. unfold add_tokens. induction aspects; simpl; auto. Qed.

Lemma decode_from_none (rest : list (str * str)) :
  forall prev_label, decode_from prev_label rest None = None.
Proof.
  induction rest as [|[tok label] rest IH]; intros prev_label; [reflexivity|].
  cbn [decode_from]. rewrite add_tokens_none. apply IH.
Qed.

Lemma add_tokens_cons (prev_label cur_token aspect : str) (aspects : list str)
                      (ea : dict (list (list str))) :
  add_tokens prev_label cur_token (aspect :: aspects) (Some ea) =
  add_tokens prev_label cur_token aspects
             (add_token prev_label cur_token ea aspect).
Proof. reflexivity. Qed.

(** A property of the collection kept by every pass of the inner loop is
    kept by the whole loop. *)
Lemma decode_from_keeps (P : dict (list (list str)) -> Prop) :
  (forall prev_label cur_token ea aspect ea',
      P ea -> add_token prev_label cur_token ea aspect = Some ea' -> P ea') ->
  forall rest prev_label ea ea',
    P ea -> decode_from prev_label rest (Some ea) = Some ea' -> P ea'.
Proof.
  intros Step.
  assert (Inner : forall prev_label cur_token aspects ea ea',
             P ea ->
             add_tokens prev_label cur_token aspects (Some ea) = Some ea' ->
             P ea').
  { intros prev_label cur_token aspects.
    induction aspects as [|a aspects IH]; intros ea ea' H E.
    - inversion E. subst. assumption.
    - rewrite add_tokens_cons in E.
      destruct (add_token prev_label cur_token ea a) as [ea1|] eqn:E1;
        [|rewrite add_tokens_none in E; discriminate].
      apply (IH ea1 ea'); [|assumption]. eapply Step; eassumption. }
  induction rest as [|[tok label] rest IH]; intros prev_label ea ea' H E.
  - inversion E. subst. assumption.
  - cbn [decode_from] in E.
    destruct (add_tokens prev_label tok (aspects_for_token label) (Some ea))
      as [ea1|] eqn:E1; [|rewrite decode_from_none in E; discriminate].
    apply (IH label ea1 ea'); [|assumption]. eapply Inner; eassumption.
Qed.

Lemma decode_filled (result : list (str * str))
                     (spans_of : dict (list (list str))) :
  decode result = Some spans_of -> spans_filled spans_of.
Proof.
  rewrite decode_eq.
  apply (decode_from_keeps spans_filled); [|constructor].
  intros prev_label cur_token ea aspect ea' H E.
  eapply add_token_filled; eassumption.
Qed.

(** When the grouping loop returns, every category of the collection has at
    least one span and no span is empty: a span is opened only to take a
    token at once. *)
Theorem decode_spans_filled (result : list (str * str))
                            (spans_of : dict (list (list str))) :
  decode result = Some spans_of ->
  Forall (fun entry => snd entry <> [] /\
                       Forall (fun span : list str => span <> []) (snd entry))
         spans_of.
Proof. apply decode_filled. Qed.

Lemma decode_spans_filled_witness :
  Forall (fun entry => snd entry <> [] /\
                       Forall (fun span : list str => span <> []) (snd entry))
         [(u "Method", [[u "Метод"]; [u "Подход"]]);
          (u "Task", [[u "Подход"]])].
Proof.
  exact (decode_spans_filled
           [(u "Метод", u "Method"); (u ",", u "O");
            (u "Подход", u "Method|Task")]
           _ eq_refl).
Defined.

(** *** No token lost *)

Lemma add_token_concat (prev_label cur_token : str)
      (ea : dict (list (list str))) (aspect : str) :
  forall ea' c,
    add_token prev_label cur_token ea aspect = Some ea' ->
    concat (dict_get_default ea' c []) =
    concat (dict_get_default ea c []) ++
    repeat cur_token (if str_eqb c aspect then 1 else 0).
Proof.
  intros ea' c H.
  destruct (add_token_inv _ _ _ _ _ H) as (d & init & span & -> & D & G & C).
  rewrite dict_get_default_set. destruct (str_eqb c aspect) eqn:E.
  - apply str_eqb_eq in E. subst c. rewrite <- C, !concat_app. simpl.
    rewrite !app_nil_r, app_assoc. reflexivity.
  - simpl. rewrite app_nil_r. destruct D as [->| ->]; [reflexivity|].
    rewrite dict_get_default_set, E. reflexivity.
Qed.

Lemma add_tokens_concat (prev_label cur_token : str) (aspects : list str) :
  forall ea ea' c,
    add_tokens prev_label cur_token aspects (Some ea) = Some ea' ->
    concat (dict_get_default ea' c []) =
    concat (dict_get_default ea c []) ++ repeat cur_token (count c aspects).
Proof.
  induction aspects as [|a aspects IH]; intros ea ea' c E.
  - inversion E. simpl. rewrite app_nil_r. reflexivity.
  - rewrite add_tokens_cons in E.
    destruct (add_token prev_label cur_token ea a) as [ea1|] eqn:E1;
      [|rewrite add_tokens_none in E; discriminate].
    rewrite (IH ea1 ea' c E), (add_token_concat _ _ _ _ _ c E1), count_cons.
    rewrite <- app_assoc, repeat_app. reflexivity.
Qed.

Lemma decode_from_concat (rest : list (str * str)) :
  forall prev_label ea ea' c,
    decode_from prev_label rest (Some ea) = Some ea' ->
    concat (dict_get_default ea' c []) =
    concat (dict_get_default ea c []) ++ tokens_of c rest.
Proof.
  induction rest as [|[tok label] rest IH]; intros prev_label ea ea' c E.
  - inversion E. simpl. rewrite app_nil_r. reflexivity.
  - cbn [decode_from] in E.
    destruct (add_tokens prev_label tok (aspects_for_token label) (Some ea))
      as [ea1|] eqn:E1; [|rewrite decode_from_none in E; discriminate].
    rewrite (IH label ea1 ea' c E), (add_tokens_concat _ _ _ _ _ c E1).
    rewrite <- app_assoc. reflexivity.
Qed.

(** When the grouping loop returns, the spans of a category, laid end to end,
    are the tokens whose label names the category, in the order of the text:
    no token is lost, moved or taken from elsewhere, whatever the labels
    are. *)
Theorem decode_keeps_tokens (result : list (str * str))
                            (spans_of : dict (list (list str))) :
  decode result = Some spans_of ->
  forall c, concat (dict_get_default spans_of c []) = tokens_of c result.
Proof.
  rewrite decode_eq. intros E c.
  apply (decode_from_concat result [] [] spans_of c E).
Qed.

Lemma decode_keeps_tokens_witness :
  concat (dict_get_default [(u "Method", [[u "a"; u "c"]])] (u "Method") []) =
  tokens_of (u "Method")
            [(u "a", u "Method"); (u "b", u "Method|O"); (u "c", u "Method")].
Proof.
  exact (decode_keeps_tokens
           [(u "a", u "Method"); (u "b", u "Method|O"); (u "c", u "Method")]
           _ eq_refl (u "Method")).
Defined.

(** *** The categories of the collection *)

Lemma dict_set_keys {V} (d : dict V) (k : str) (v : V) :
  map fst (dict_set d k v) = add_key (map fst d) k.
Proof.
  unfold add_key. induction d as [|[k' v'] d IH]; simpl; [reflexivity|].
  destruct (str_eqb k k') eqn:E; simpl.
  - apply str_eqb_eq in E. subst. reflexivity.
  - rewrite IH. fold (list_in k (map fst d)).
    destruct (list_in k (map fst d)); reflexivity.
Qed.

Lemma add_key_twice (keys : list str) (k : str) :
  add_key (add_key keys k) k = add_key keys k.
Proof.
  unfold add_key. destruct (list_in k keys) eqn:E; [rewrite E; reflexivity|].
  assert (I : list_in k (keys ++ [k]) = true).
  { apply list_in_In, in_or_app. right. left. reflexivity. }
  rewrite I. reflexivity.
Qed.

Lemma add_token_keys (prev_label cur_token : str)
      (ea : dict (list (list str))) (aspect : str) :
  forall ea',
    add_token prev_label cur_token ea aspect = Some ea' ->
    map fst ea' = add_key (map fst ea) aspect.
Proof.
  intros ea' H.
  destruct (add_token_inv _ _ _ _ _ H) as (d & init & span & -> & D & G & _).
  rewrite dict_set_keys. destruct D as [->| ->].
  - reflexivity.
  - rewrite dict_set_keys. apply add_key_twice.
Qed.

Lemma add_tokens_keys (prev_label cur_token : str) (aspects : list str) :
  forall ea ea',
    add_tokens prev_label cur_token aspects (Some ea) = Some ea' ->
    map fst ea' = fold_left add_key aspects (map fst ea).
Proof.
  induction aspects as [|a aspects IH]; intros ea ea' E.
  - inversion E. reflexivity.
  - rewrite add_tokens_cons in E.
    destruct (add_token prev_label cur_token ea a) as [ea1|] eqn:E1;
      [|rewrite add_tokens_none in E; discriminate].
    rewrite (IH ea1 ea' E), (add_token_keys _ _ _ _ _ E1). reflexivity.
Qed.

Lemma decode_from_keys (rest : list (str * str)) :
  forall prev_label ea ea',
    decode_from prev_label rest (Some ea) = Some ea' ->
    map fst ea' = fold_left add_key (flat_map categories_of rest) (map fst ea).
Proof.
  induction rest as [|[tok label] rest IH]; intros prev_label ea ea' E.
  - inversion E. reflexivity.
  - cbn [decode_from] in E.
    destruct (add_tokens prev_label tok (aspects_for_token label) (Some ea))
      as [ea1|] eqn:E1; [|rewrite decode_from_none in E; discriminate].
    cbn [flat_map]. rewrite fold_left_app.
    rewrite (IH label ea1 ea' E), (add_tokens_keys _ _ _ _ _ E1). reflexivity.
Qed.

Lemma add_key_spec (keys : list str) (k : str) :
  (NoDup keys -> NoDup (add_key keys k)) /\
  (forall c, In c (add_key keys k) <-> In c keys \/ c = k).
Proof.
  unfold add_key. destruct (list_in k keys) eqn:E.
  - apply list_in_In in E. split; [auto|]. intros c. split; [auto|].
    intros [I| ->]; assumption.
  - apply list_in_not_In in E. split.
    + intros N. apply NoDup_app; [assumption | repeat constructor; intros [] |].
      intros c I [<-|[]]. contradiction.
    + intros c. rewrite in_app_iff. simpl. intuition.
Qed.

Lemma fold_add_key_spec (l : list str) :
  forall keys,
    (NoDup keys -> NoDup (fold_left add_key l keys)) /\
    (forall c, In c (fold_left add_key l keys) <-> In c keys \/ In c l).
Proof.
  induction l as [|k l IH]; intros keys.
  - simpl. split; [auto|]. intros c. tauto.
  - cbn [fold_left]. destruct (IH (add_key keys k)) as [N M].
    destruct (add_key_spec keys k) as [N' M']. split; [auto|].
    intros c. rewrite M, M'. simpl. intuition.
Qed.

Lemma decode_keys (result : list (str * str))
                   (spans_of : dict (list (list str))) :
  decode result = Some spans_of ->
  map fst spans_of = first_seen (flat_map categories_of result).
Proof.
  rewrite decode_eq. intros E.
  exact (decode_from_keys result [] [] spans_of E).
Qed.

Lemma decode_keys_in (result : list (str * str))
                      (spans_of : dict (list (list str))) :
  decode result = Some spans_of ->
  forall c, In c (map fst spans_of) <->
            exists entry, In entry result /\ In c (categories_of entry).
Proof.
  intros E c. rewrite (decode_keys _ _ E).
  destruct (fold_add_key_spec (flat_map categories_of result) []) as [_ M].
  fold (first_seen (flat_map categories_of result)) in M.
  rewrite M, in_flat_map. simpl. tauto.
Qed.

(** When the grouping loop returns, the categories of the collection are
    the categories named by the labels without [O], each once, in the order
    in which the text first names them. *)
Theorem decode_categories (result : list (str * str))
                          (spans_of : dict (list (list str))) :
  decode result = Some spans_of ->
  map fst spans_of = first_seen (flat_map categories_of result) /\
  NoDup (map fst spans_of) /\
  (forall c, In c (map fst spans_of) <->
             exists entry, In entry result /\ In c (categories_of entry)).
Proof.
  intros E. split; [apply decode_keys; assumption|].
  split; [|apply decode_keys_in; assumption].
  rewrite (decode_keys _ _ E).
  apply (fold_add_key_spec (flat_map categories_of result) []). constructor.
Qed.

Lemma decode_categories_witness :
  map fst [(u "Method", [[u "Метод"]; [u "Подход"]]);
           (u "Task", [[u "Подход"]])] =
  first_seen (flat_map categories_of
                [(u "Метод", u "Method"); (u ",", u "O");
                 (u "Подход", u "Method|Task")]).
Proof.
  exact (proj1 (decode_categories
                  [(u "Метод", u "Method"); (u ",", u "O");
                   (u "Подход", u "Method|Task")]
                  _ eq_refl)).
Defined.

(** *** When the loop raises *)

Lemma dict_get_key {V} (d : dict V) (k : str) :
  dict_get d k = None <-> ~ In k (map fst d).
Proof.
  induction d as [|[k' v'] d IH]; simpl; [tauto|].
  destruct (str_eqb k k') eqn:E.
  - apply str_eqb_eq in E. subst. split; [discriminate | tauto].
  - apply str_eqb_neq in E. rewrite IH. intuition.
Qed.

Lemma spans_filled_no_span (ea : dict (list (list str))) (c : str) :
  spans_filled ea ->
  (dict_get_default ea c [] = [] <-> ~ In c (map fst ea)).
Proof.
  intros F. rewrite <- dict_get_key. unfold dict_get_default.
  destruct (dict_get ea c) as [v|] eqn:G; [|tauto].
  split; [|discriminate]. intros ->. exfalso.
  unfold spans_filled in F. clear - F G.
  induction ea as [|[k' v'] ea IH]; simpl in G; [discriminate|].
  inversion F as [|? ? [H _] Fd]; subst.
  destruct (str_eqb c k'); [inversion G; subst; apply H; reflexivity|].
  apply IH; assumption.
Qed.

Lemma add_token_raises (prev_label cur_token : str)
      (ea : dict (list (list str))) (aspect : str) :
  spans_filled ea ->
  (add_token prev_label cur_token ea aspect = None <->
   str_in aspect prev_label = true /\ ~ In aspect (map fst ea)).
Proof.
  intros F. unfold add_token.
  destruct (str_in aspect prev_label) eqn:S; cbn [negb].
  - rewrite <- (spans_filled_no_span ea aspect F).
    destruct (dict_get_default ea aspect []) as [|s spans] eqn:G.
    + simpl. tauto.
    + destruct (append_to_last_some (s :: spans) cur_token) as [sp [-> _]];
        [discriminate|].
      split; [discriminate | intros [_ H]; discriminate].
  - rewrite dict_get_default_set, str_eqb_refl.
    destruct (append_to_last_some
                (dict_get_default ea aspect [] ++ [[]]) cur_token)
      as [sp [-> _]].
    { intros E. apply app_eq_nil in E as [_ E]. discriminate. }
    split; [discriminate | intros [H _]; discriminate].
Qed.

Lemma add_tokens_raises (prev_label cur_token : str) (aspects : list str) :
  forall ea,
    spans_filled ea ->
    (add_tokens prev_label cur_token aspects (Some ea) = None <->
     exists c, In c aspects /\ str_in c prev_label = true /\
               ~ In c (map fst ea)).
Proof.
  induction aspects as [|a aspects IH]; intros ea F.
  - split; [discriminate | intros (c & [] & _)].
  - rewrite add_tokens_cons.
    destruct (add_token prev_label cur_token ea a) as [ea1|] eqn:E1.
    + pose proof (add_token_filled _ _ _ _ _ F E1) as F1.
      pose proof (add_token_keys _ _ _ _ _ E1) as K.
      assert (NR : ~ (str_in a prev_label = true /\ ~ In a (map fst ea))).
      { intros H. apply (add_token_raises prev_label cur_token ea a F) in H.
        congruence. }
      rewrite (IH ea1 F1), K. split.
      * intros (c & I & S & N). exists c. split; [right; assumption|].
        split; [assumption|]. intros J. apply N.
        apply add_key_spec. left. assumption.
      * intros (c & [<-|I] & S & N); [tauto|].
        exists c. split; [assumption|]. split; [assumption|].
        intros J. apply add_key_spec in J as [J| ->]; [contradiction|].
        tauto.
    + rewrite add_tokens_none. split; [|reflexivity]. intros _.
      apply (add_token_raises prev_label cur_token ea a F) in E1.
      exists a. split; [left; reflexivity | assumption].
Qed.

Lemma decode_snoc (pre : list (str * str)) (tok label : str) :
  decode (pre ++ [(tok, label)]) =
  add_tokens (last (map snd pre) []) tok (aspects_for_token label) (decode pre).
Proof. rewrite !decode_eq, decode_from_app. reflexivity. Qed.

Lemma decode_prefix_raises (pre post : list (str * str)) :
  decode pre = None -> decode (pre ++ post) = None.
Proof.
  rewrite !decode_eq, decode_from_app. intros ->. apply decode_from_none.
Qed.

(** The grouping loop raises exactly when some token names a category that
    is written inside the raw label of the token before it (inside the empty
    label, for the first token) and that no earlier token has named: the
    loop then reads the last span of a category that has none. *)
Theorem decode_raises_iff (result : list (str * str)) :
  decode result = None <->
  exists pre tok label post c,
    result = pre ++ (tok, label) :: post /\
    In c (aspects_for_token label) /\
    str_in c (last (map snd pre) []) = true /\
    ~ (exists entry, In entry pre /\ In c (categories_of entry)).
Proof.
  split.
  - induction result as [|[tok label] result IH] using rev_ind;
      [discriminate|].
    rewrite decode_snoc. destruct (decode result) as [ea|] eqn:D.
    + intros E.
      apply (add_tokens_raises _ _ _ ea (decode_filled _ _ D)) in E.
      destruct E as (c & I & S & N).
      exists result, tok, label, [], c. repeat split; try assumption.
      intros X. apply N. apply (decode_keys_in _ _ D). assumption.
    + intros _. destruct (IH eq_refl) as (pre & t & l & post & c & -> & H).
      exists pre, t, l, (post ++ [(tok, label)]), c.
      rewrite <- app_assoc. split; [reflexivity | assumption].
  - intros (pre & tok & label & post & c & -> & I & S & N).
    replace (pre ++ (tok, label) :: post)
      with ((pre ++ [(tok, label)]) ++ post)
      by (rewrite <- app_assoc; reflexivity).
    apply decode_prefix_raises. rewrite decode_snoc.
    destruct (decode pre) as [ea|] eqn:D; [|apply add_tokens_none].
    apply (add_tokens_raises _ _ _ ea (decode_filled _ _ D)).
    exists c. repeat split; try assumption.
    intros X. apply N. apply (decode_keys_in _ _ D). assumption.
Qed.

(** ** On [extract_aspects] as a whole *)

Lemma dict_get_in_nodup {V} (d : dict V) (k : str) (v : V) :
  NoDup (map fst d) -> In (k, v) d -> dict_get d k = Some v.
Proof.
  induction d as [|[k' v'] d IH]; intros N I; [destruct I|].
  simpl in *. inversion N as [|? ? NI Nd]; subst.
  destruct I as [E|I].
  - inversion E; subst. rewrite str_eqb_refl. reflexivity.
  - destruct (str_eqb k k') eqn:E; [|apply IH; assumption].
    apply str_eqb_eq in E. subst k'. exfalso. apply NI.
    apply in_map_iff. exists (k, v). split; [reflexivity | assumption].
Qed.

Lemma tokens_of_in (c t : str) (result : list (str * str)) :
  In t (tokens_of c result) -> exists entry, In entry result /\ fst entry = t.
Proof.
  unfold tokens_of. rewrite in_flat_map. intros (entry & I & R).
  apply repeat_spec in R. exists entry. split; [assumption | congruence].
Qed.

(** The tokens of a span are tokens of the labelled sequence. *)
Lemma decode_span_tokens (result : list (str * str))
      (ea : dict (list (list str))) (c : str) (spans : list (list str))
      (span : list str) (t : str) :
  decode result = Some ea -> In (c, spans) ea -> In span spans -> In t span ->
  exists entry, In entry result /\ fst entry = t.
Proof.
  intros D I Is It. apply (tokens_of_in c).
  assert (N : NoDup (map fst ea)).
  { rewrite (decode_keys _ _ D).
    apply (fold_add_key_spec (flat_map categories_of result) []). constructor. }
  pose proof (dict_get_in_nodup ea c spans N I) as G.
  assert (C : concat (dict_get_default ea c []) = tokens_of c result).
  { apply (decode_from_concat result [] [] ea c). rewrite <- decode_eq.
    assumption. }
  rewrite <- C. unfold dict_get_default. rewrite G.
  apply in_concat. exists span. split; assumption.
Qed.

Lemma process_plain_returns (morph_parse : str -> list Parse)
      (syntax_parser : list str -> Doc) (upper : char -> str)
      (mention : list str) :
  mention <> [] -> Forall (fun t => t <> []) mention ->
  process morph_parse syntax_parser false upper mention <> None.
Proof.
  intros NE F. unfold process.
  destruct (detokenize (balance_parentheses mention)) as [|c rest] eqn:E;
    [|discriminate].
  apply balance_detokenize_nil in E. exfalso.
  destruct mention as [|t mention]; [congruence|].
  inversion E; subst. inversion F; subst. congruence.
Qed.

Lemma mapM_Forall2_length {A B} (f : A -> option B)
                          (l : list A) (out : list B) :
  mapM f l = Some out -> List.length out = List.length l.
Proof.
  intros H. apply mapM_Forall2 in H. symmetry.
  induction H; simpl; congruence.
Qed.

Lemma mapM_process_counts (p : list str -> option str)
      (ea : dict (list (list str))) :
  forall out,
    mapM (fun '(aspect, mentions) =>
            match mapM p mentions with
            | Some processed => Some (aspect, processed)
            | None => None
            end) ea = Some out ->
    mention_counts out = mention_counts ea.
Proof.
  induction ea as [|[c spans] ea IH]; intros out H; simpl in H.
  - inversion H. reflexivity.
  - destruct (mapM p spans) as [processed|] eqn:P; [|discriminate].
    destruct (mapM _ ea) as [rest|] eqn:R; [|discriminate].
    inversion H. subst out. unfold mention_counts. cbn [map fst snd].
    rewrite (mapM_Forall2_length _ _ _ P). f_equal. apply IH. reflexivity.
Qed.

Lemma extract_aspects_plain
    (morph_parse : str -> list Parse) (syntax_parser : list str -> Doc)
    (upper : char -> str) (Text : Type)
    (predictor_extract : Text -> list (str * str)) (text : Text) :
  (forall entry, In entry (predictor_extract text) -> fst entry <> []) ->
  (extract_aspects morph_parse syntax_parser false upper Text
                   predictor_extract text = None <->
   decode (predictor_extract text) = None) /\
  (forall out,
      extract_aspects morph_parse syntax_parser false upper Text
                      predictor_extract text = Some out ->
      exists spans_of,
        decode (predictor_extract text) = Some spans_of /\
        mention_counts out = mention_counts spans_of).
Proof.
  intros NE. unfold extract_aspects.
  destruct (decode (predictor_extract text)) as [ea|] eqn:D;
    [|split; [tauto | discriminate]].
  pose proof (decode_filled _ _ D) as F.
  set (f := fun '(aspect, mentions) =>
              match mapM (process morph_parse syntax_parser false upper)
                         mentions with
              | Some processed => Some (aspect, processed)
              | None => None
              end).
  assert (T : forall entry, In entry ea -> f entry <> None).
  { intros [c spans] I. unfold f.
    destruct (mapM_total (process morph_parse syntax_parser false upper) spans)
      as [ms ->]; [|discriminate].
    intros span Is. unfold spans_filled in F. rewrite Forall_forall in F.
    destruct (F _ I) as [_ S]. rewrite Forall_forall in S.
    apply process_plain_returns; [apply S; assumption|].
    apply Forall_forall. intros t It.
    destruct (decode_span_tokens _ _ _ _ _ _ D I Is It) as (entry & Ie & <-).
    apply NE. assumption. }
  destruct (mapM_total f ea T) as [out M]. fold f. rewrite M.
  split; [split; discriminate|].
  intros out' E. inversion E. subst out'. exists ea. split; [reflexivity|].
  apply (mapM_process_counts _ _ _ M).
Qed.

(** Without normalisation and with no empty token, [extract_aspects] raises
    only where its grouping loop does; and what it returns has the
    categories of the grouping in their order, with one mention string for
    each span. *)
Theorem extract_aspects_returns
    (morph_parse : str -> list Parse) (syntax_parser : list str -> Doc)
    (upper : char -> str) (Text : Type)
    (predictor_extract : Text -> list (str * str)) (text : Text) :
  (forall entry, In entry (predictor_extract text) -> fst entry <> []) ->
  (extract_aspects morph_parse syntax_parser false upper Text
                   predictor_extract text = None <->
   decode (predictor_extract text) = None) /\
  (forall out,
      extract_aspects morph_parse syntax_parser false upper Text
                      predictor_extract text = Some out ->
      exists spans_of,
        decode (predictor_extract text) = Some spans_of /\
        mention_counts out = mention_counts spans_of).
Proof. apply extract_aspects_plain. Qed.

Lemma extract_aspects_returns_witness :
  extract_aspects two_parse_morph
                  (fun _ => Build_Doc [] (Build_Token 0 [] [] [] 0 [] []))
                  false (fun c => [c]) (list (str * str)) (fun result => result)
                  [(u "a", u "Method"); (u "b", u "Meth")] = None <->
  decode [(u "a", u "Method"); (u "b", u "Meth")] = None.
Proof.
  apply (extract_aspects_returns
           two_parse_morph
           (fun _ => Build_Doc [] (Build_Token 0 [] [] [] 0 [] []))
           (fun c => [c]) (list (str * str)) (fun result => result)
           [(u "a", u "Method"); (u "b", u "Meth")]).
  intros entry [<-|[<-|[]]]; discriminate.
Defined.

(** ** On [print_extracted_aspects] *)

Lemma numbered_length (mentions : list str) :
  forall n, List.length (numbered n mentions) = List.length mentions.
Proof.
  induction mentions as [|m mentions IH]; intros n; [reflexivity|].
  simpl. rewrite IH. reflexivity.
Qed.

Lemma print_loop_raises (upper : char -> str) (items : dict (list str)) :
  forall printed,
    snd (print_loop upper items printed) = true <->
    exists c, In c (map fst items) /\ dict_get TRANSLATIONS c = None.
Proof.
  induction items as [|[c mentions] items IH]; intros printed.
  - simpl. split; [discriminate | intros (c & [] & _)].
  - cbn [print_loop]. destruct (dict_get TRANSLATIONS c) as [[sg pl]|] eqn:G.
    + rewrite IH. cbn [map fst snd In]. split.
      * intros (k & I & N). exists k. split; [right|]; assumption.
      * intros (k & [<-|I] & N); [congruence|]. exists k. split; assumption.
    + cbn [map fst snd In]. split; [|reflexivity]. intros _. exists c.
      split; [left; reflexivity | assumption].
Qed.

Lemma print_loop_count (upper : char -> str) (items : dict (list str)) :
  forall printed,
    snd (print_loop upper items printed) = false ->
    List.length (fst (print_loop upper items printed)) =
    (List.length printed + List.length items +
     List.length (flatten (map snd items)))%nat.
Proof.
  induction items as [|[c mentions] items IH]; intros printed.
  - simpl. lia.
  - cbn [print_loop]. destruct (dict_get TRANSLATIONS c) as [[sg pl]|];
      [|discriminate].
    intros H. rewrite (IH _ H). unfold flatten. cbn [map flat_map snd].
    rewrite !length_app. cbn [List.length]. rewrite numbered_length. lia.
Qed.

Lemma print_loop_stops (upper : char -> str) (pre : dict (list str)) :
  forall printed c mentions post,
    (forall k, In k (map fst pre) -> dict_get TRANSLATIONS k <> None) ->
    dict_get TRANSLATIONS c = None ->
    print_loop upper (pre ++ (c, mentions) :: post) printed =
    (fst (print_loop upper pre printed), true).
Proof.
  induction pre as [|[k ms] pre IH]; intros printed c mentions post K N.
  - cbn [app print_loop]. rewrite N. reflexivity.
  - cbn [app print_loop].
    destruct (dict_get TRANSLATIONS k) as [[sg pl]|] eqn:G.
    + apply IH; [|assumption]. intros k' I. apply K. right. assumption.
    + exfalso. apply (K k); [left; reflexivity | assumption].
Qed.

(** [print_extracted_aspects] raises exactly when some category of the
    collection has no translation, after printing the lines of the
    categories before the first such one; when it returns it has printed one
    header for each category and one line for each mention. *)
Theorem print_extracted_aspects_raises (upper : char -> str) :
  (forall extracted_aspects,
      snd (print_extracted_aspects upper extracted_aspects) = true <->
      exists c, In c (map fst extracted_aspects) /\
                dict_get TRANSLATIONS c = None) /\
  (forall pre c mentions post,
      (forall k, In k (map fst pre) -> dict_get TRANSLATIONS k <> None) ->
      dict_get TRANSLATIONS c = None ->
      print_extracted_aspects upper (pre ++ (c, mentions) :: post) =
      (fst (print_extracted_aspects upper pre), true)) /\
  (forall extracted_aspects,
      snd (print_extracted_aspects upper extracted_aspects) = false ->
      List.length (fst (print_extracted_aspects upper extracted_aspects)) =
      (List.length extracted_aspects +
       List.length (flatten (map snd extracted_aspects)))%nat).
Proof.
  unfold print_extracted_aspects. split; [|split].
  - intros ea. apply print_loop_raises.
  - intros pre c mentions post. apply print_loop_stops.
  - intros ea H. rewrite (print_loop_count upper ea [] H). reflexivity.
Qed.

(** ** From labels of the wire format to the printed list *)

Lemma vocabulary_translated (c : str) :
  In c ASPECTS_LIST -> dict_get TRANSLATIONS c <> None.
Proof.
  intros I.
  assert (H : forallb (fun c => dict_in TRANSLATIONS c) ASPECTS_LIST = true)
    by reflexivity.
  rewrite forallb_forall in H. specialize (H c I). unfold dict_in in H.
  destruct (dict_get TRANSLATIONS c); [discriminate | discriminate].
Qed.

Lemma mention_counts_keys {A B} (d : dict (list A)) (d' : dict (list B)) :
  mention_counts d = mention_counts d' -> map fst d = map fst d'.
Proof.
  unfold mention_counts. intros H. apply (f_equal (map fst)) in H.
  rewrite !map_map in H. exact H.
Qed.

(** On labels of the wire format and tokens none of which is empty, without
    normalisation, the whole chain returns: [extract_aspects] returns a
    collection, its categories are categories of the vocabulary, and
    [print_extracted_aspects] prints it without raising. *)
Theorem extract_and_print_wire_format
    (morph_parse : str -> list Parse) (syntax_parser : list str -> Doc)
    (upper : char -> str) (Text : Type)
    (predictor_extract : Text -> list (str * str)) (text : Text) :
  Forall wf_label (map snd (predictor_extract text)) ->
  (forall entry, In entry (predictor_extract text) -> fst entry <> []) ->
  exists out,
    extract_aspects morph_parse syntax_parser false upper Text
                    predictor_extract text = Some out /\
    (forall c, In c (map fst out) -> In c ASPECTS_LIST) /\
    snd (print_extracted_aspects upper out) = false.
Proof.
  intros W NE.
  destruct (decode_follows_continuation_law _ W) as [ea [D _]].
  destruct (extract_aspects_plain morph_parse syntax_parser upper Text
              predictor_extract text NE) as [R S].
  destruct (extract_aspects morph_parse syntax_parser false upper Text
              predictor_extract text) as [out|] eqn:E.
  - exists out. split; [reflexivity|].
    destruct (S out eq_refl) as [ea' [D' C]].
    assert (K : forall c, In c (map fst out) -> In c ASPECTS_LIST).
    { intros c I. rewrite (mention_counts_keys _ _ C) in I.
      apply (decode_keys_in _ _ D') in I as ([tok label] & Ie & Ic).
      apply (aspects_for_token_wf label); [|assumption].
      rewrite Forall_forall in W. apply W.
      apply in_map_iff. exists (tok, label). split; [reflexivity | assumption]. }
    split; [assumption|].
    destruct (snd (print_extracted_aspects upper out)) eqn:P; [|reflexivity].
    apply print_loop_raises in P as (c & I & N).
    exfalso. apply (vocabulary_translated c); auto.
  - destruct R as [R _]. rewrite (R eq_refl) in D. discriminate.
Qed.

Lemma extract_and_print_wire_format_witness :
  exists out,
    extract_aspects two_parse_morph
                    (fun _ => Build_Doc [] (Build_Token 0 [] [] [] 0 [] []))
                    false (fun c => [c]) (list (str * str))
                    (fun result => result)
                    [(u "Метод", u "Method"); (u ",", u "O");
                     (u "Подход", u "Method|Task")] = Some out /\
    (forall c, In c (map fst out) -> In c ASPECTS_LIST) /\
    snd (print_extracted_aspects (fun c => [c]) out) = false.
Proof.
  apply (extract_and_print_wire_format
           two_parse_morph
           (fun _ => Build_Doc [] (Build_Token 0 [] [] [] 0 [] []))
           (fun c => [c]) (list (str * str)) (fun result => result)
           [(u "Метод", u "Method"); (u ",", u "O");
            (u "Подход", u "Method|Task")]).
  - apply Forall_cons; [|apply Forall_cons; [|apply Forall_cons]].
    + right. exists [u "Method"]. split; [discriminate|].
      split; [|reflexivity]. intros c [<-|[]]. cbn. auto.
    + left. reflexivity.
    + right. exists [u "Method"; u "Task"]. split; [discriminate|].
      split; [|reflexivity]. intros c [<-|[<-|[]]]; cbn; auto.
    + apply Forall_nil.
  - intros entry [<-|[<-|[<-|[]]]]; discriminate.
Defined.

(** ** On [sort_dataset] *)

Lemma insert_desc_perm {A} (key : A -> nat) (x : A) (l : list A) :
  Permutation (insert_desc key x l) (x :: l).
Proof.
  induction l as [|y l IH]; simpl; [reflexivity|].
  destruct (Nat.leb (key y) (key x)); [reflexivity|].
  rewrite perm_swap. constructor. exact IH.
Qed.

Lemma sorted_desc_perm {A} (key : A -> nat) (l : list A) :
  Permutation (sorted_desc key l) l.
Proof.
  induction l as [|x l IH]; simpl; [constructor|].
  rewrite insert_desc_perm. constructor. exact IH.
Qed.

Lemma insert_desc_sorted {A} (key : A -> nat) (x : A) (l : list A) :
  Sorted (fun a b => key b <= key a)%nat l ->
  Sorted (fun a b => key b <= key a)%nat (insert_desc key x l).
Proof.
  induction 1 as [|y l S IH H]; simpl; [repeat constructor|].
  destruct (Nat.leb_spec (key y) (key x)) as [L|L].
  - constructor; [constructor; assumption | constructor; assumption].
  - constructor; [assumption|].
    destruct l as [|z l]; simpl.
    + constructor. lia.
    + inversion H; subst. destruct (Nat.leb (key z) (key x)); constructor;
        [lia | assumption].
Qed.

Lemma sorted_desc_sorted {A} (key : A -> nat) (l : list A) :
  Sorted (fun a b => key b <= key a)%nat (sorted_desc key l).
Proof.
  induction l as [|x l IH]; simpl; [constructor|].
  apply insert_desc_sorted, IH.
Qed.

Lemma insert_desc_filter {A} (key : A -> nat) (n : nat) (x : A) (l : list A) :
  filter (fun a => Nat.eqb (key a) n) (insert_desc key x l) =
  filter (fun a => Nat.eqb (key a) n) (x :: l).
Proof.
  induction l as [|y l IH]; [reflexivity|].
  cbn [insert_desc]. destruct (Nat.leb_spec (key y) (key x)) as [L|L];
    [reflexivity|].
  cbn [filter] in *. rewrite IH.
  destruct (Nat.eqb_spec (key x) n) as [Ex|Ex];
    destruct (Nat.eqb_spec (key y) n) as [Ey|Ey]; try reflexivity. lia.
Qed.

Lemma sorted_desc_filter {A} (key : A -> nat) (n : nat) (l : list A) :
  filter (fun a => Nat.eqb (key a) n) (sorted_desc key l) =
  filter (fun a => Nat.eqb (key a) n) l.
Proof.
  induction l as [|x l IH]; [reflexivity|].
  cbn [sorted_desc fold_right]. fold (sorted_desc key l).
  rewrite insert_desc_filter. cbn [filter]. rewrite IH. reflexivity.
Qed.

Lemma combine_fst_snd {A B} (l : list (A * B)) :
  combine (map fst l) (map snd l) = l.
Proof.
  induction l as [|[a b] l IH]; simpl; congruence.
Qed.

Lemma Sorted_map_fst {A B} (R : A -> A -> Prop) (l : list (A * B)) :
  Sorted (fun a b => R (fst a) (fst b)) l -> Sorted R (map fst l).
Proof.
  induction 1 as [|a l S IH H]; simpl; constructor; [assumption|].
  destruct H; simpl; constructor. assumption.
Qed.

(** [sort_dataset] keeps each sample with its label, returns the pairs of
    [zip(samples, labels)] rearranged so that the samples go from the longest
    to the shortest, and returns as many samples and labels as the shorter of
    its two arguments has: what the longer one has beyond is dropped. *)
Theorem sort_dataset_sorted {A B} (samples : list (list A)) (labels : list B) :
  let sorted_samples := fst (sort_dataset samples labels) in
  let sorted_labels := snd (sort_dataset samples labels) in
  Permutation (combine sorted_samples sorted_labels) (combine samples labels) /\
  Sorted (fun a b => List.length b <= List.length a)%nat sorted_samples /\
  List.length sorted_samples =
    Nat.min (List.length samples) (List.length labels) /\
  List.length sorted_labels =
    Nat.min (List.length samples) (List.length labels).
Proof.
  unfold sort_dataset. cbn [fst snd]. rewrite combine_fst_snd.
  set (key := fun x : list A * B => List.length (fst x)).
  split; [apply sorted_desc_perm|]. split.
  - apply Sorted_map_fst. apply (sorted_desc_sorted key).
  - rewrite !length_map.
    rewrite (Permutation_length (sorted_desc_perm key (combine samples labels))).
    rewrite length_combine. split; reflexivity.
Qed.

(** [sort_dataset] is stable: among the samples of one length the pairs
    keep the order they had in [zip(samples, labels)]. *)
Theorem sort_dataset_stable {A B} (samples : list (list A)) (labels : list B)
                            (n : nat) :
  filter (fun x => Nat.eqb (List.length (fst x)) n)
         (combine (fst (sort_dataset samples labels))
                  (snd (sort_dataset samples labels))) =
  filter (fun x => Nat.eqb (List.length (fst x)) n) (combine samples labels).
Proof.
  unfold sort_dataset. cbn [fst snd]. rewrite combine_fst_snd.
  apply (sorted_desc_filter (fun x : list A * B => List.length (fst x))).
Qed.

(** ** On [tokenize] *)

Lemma concat_singletons {A} (l : list A) : concat (map (fun c => [c]) l) = l.
Proof. induction l as [|c l IH]; simpl; congruence. Qed.

Lemma validated_tokens_concat (tokens : list str) :
  concat (validated_tokens tokens) = concat tokens.
Proof.
  unfold validated_tokens. induction tokens as [|t tokens IH]; [reflexivity|].
  cbn [flat_map concat]. rewrite concat_app, IH. f_equal.
  destruct (is_all_puncts t); [apply concat_singletons|].
  simpl. apply app_nil_r.
Qed.

Lemma validated_token_kinds (tokens : list str) (t : str) :
  In t (validated_tokens tokens) ->
  (exists c, t = [c] /\ In c puncts) \/
  (In t tokens /\ is_all_puncts t = false).
Proof.
  unfold validated_tokens. rewrite in_flat_map. intros (t0 & I & H).
  destruct (is_all_puncts t0) eqn:E.
  - left. apply in_map_iff in H as (c & <- & Ic). exists c.
    split; [reflexivity|]. unfold is_all_puncts in E.
    rewrite forallb_forall in E. specialize (E c Ic).
    apply existsb_exists in E as (p & Ip & Ep). apply N.eqb_eq in Ep.
    subst. assumption.
  - right. destruct H as [<-|[]]. split; assumption.
Qed.

Lemma punct_all_puncts (c : char) : In c puncts -> is_all_puncts [c] = true.
Proof.
  intros I. unfold is_all_puncts. cbn [forallb]. rewrite andb_true_r.
  apply existsb_exists. exists c. split; [assumption | apply N.eqb_refl].
Qed.

(** [tokenize] passes on every character of the tokens of
    [wordpunct_tokenize], in order; it returns no empty token; and each token
    it returns is a single character of [puncts] or a token of
    [wordpunct_tokenize] with a character outside [puncts]: brackets and
    quote marks that arrive in a run of punctuation leave it one by one. *)
Theorem tokenize_tokens (wordpunct_tokenize : str -> list str) (text : str) :
  concat (tokenize wordpunct_tokenize text) = concat (wordpunct_tokenize text) /\
  Forall (fun t => t <> []) (tokenize wordpunct_tokenize text) /\
  Forall (fun t => (exists c, t = [c] /\ In c puncts) \/
                   (In t (wordpunct_tokenize text) /\
                    is_all_puncts t = false))
         (tokenize wordpunct_tokenize text).
Proof.
  unfold tokenize. split; [apply validated_tokens_concat|].
  split; apply Forall_forall; intros t I;
    apply validated_token_kinds in I.
  - destruct I as [(c & -> & _)|[_ E]]; [discriminate|].
    intros ->. discriminate.
  - assumption.
Qed.

(** Validating validated tokens changes nothing. *)
Theorem validated_tokens_idempotent (tokens : list str) :
  validated_tokens (validated_tokens tokens) = validated_tokens tokens.
Proof.
  assert (Fix : forall l : list str,
             (forall t, In t l ->
                        (if is_all_puncts t then map (fun c => [c]) t else [t])
                        = [t]) ->
             validated_tokens l = l).
  { unfold validated_tokens. induction l as [|t l IH]; intros H; [reflexivity|].
    cbn [flat_map]. rewrite (H t) by (left; reflexivity).
    rewrite IH by (intros t' I; apply H; right; assumption). reflexivity. }
  apply Fix. intros t I.
  apply validated_token_kinds in I as [(c & -> & Ic)|[_ E]].
  - rewrite (punct_all_puncts c Ic). reflexivity.
  - rewrite E. reflexivity.
Qed.

(** ** The spans of a category are the runs of its tokens *)

Lemma append_to_last_snoc (init : list (list str)) (span : list str)
                          (token : str) :
  append_to_last (init ++ [span]) token = Some (init ++ [span ++ [token]]).
Proof.
  induction init as [|s init IH]; [reflexivity|].
  cbn [app]. destruct (init ++ [span]) as [|s' rest] eqn:E.
  - destruct init; discriminate.
  - change (append_to_last (s :: s' :: rest) token)
      with (match append_to_last (s' :: rest) token with
            | Some spans'' => Some (s :: spans'')
            | None => None
            end).
    rewrite IH. reflexivity.
Qed.

Lemma cat_run_segments (l : list (str * bool)) :
  (forall init span,
      cat_run true l (init ++ [span]) =
      Some (init ++ [span ++ fst (runs_state l)] ++ snd (runs_state l))) /\
  (forall spans, cat_run false l spans = Some (spans ++ segments l)).
Proof.
  unfold segments. induction l as [|[t [|]] l [IHt IHf]].
  - split; intros; simpl; rewrite ?app_nil_r; reflexivity.
  - split.
    + intros init span. cbn [cat_run]. rewrite append_to_last_snoc, IHt.
      cbn [runs_state fold_right snd fst]. fold (runs_state l).
      rewrite <- app_assoc. reflexivity.
    + intros spans. cbn [cat_run]. rewrite append_to_last_snoc, IHt.
      cbn [runs_state fold_right snd fst push_run]. fold (runs_state l).
      reflexivity.
  - split.
    + intros init span. cbn [cat_run]. rewrite IHf.
      cbn [runs_state fold_right snd fst]. fold (runs_state l).
      rewrite app_nil_r, <- app_assoc. reflexivity.
    + intros spans. cbn [cat_run]. rewrite IHf.
      cbn [runs_state fold_right snd fst push_run]. fold (runs_state l).
      reflexivity.
Qed.

Lemma add_token_spec_get (prev_set : list str) (cur_token : str)
      (ea : dict (list (list str))) (a : str) :
  forall ea',
    add_token_spec prev_set cur_token ea a = Some ea' ->
    (forall c, c <> a ->
               dict_get_default ea' c [] = dict_get_default ea c []) /\
    append_to_last (if list_in a prev_set then dict_get_default ea a []
                    else dict_get_default ea a [] ++ [[]]) cur_token =
    Some (dict_get_default ea' a []).
Proof.
  intros ea'. unfold add_token_spec.
  destruct (list_in a prev_set); cbn [negb].
  - destruct (append_to_last (dict_get_default ea a []) cur_token)
      as [spans|] eqn:E; [|discriminate].
    intros H. inversion H. subst ea'. split.
    + intros c N. rewrite dict_get_default_set.
      apply str_eqb_neq in N. rewrite N. reflexivity.
    + rewrite dict_get_default_set, str_eqb_refl. reflexivity.
  - rewrite dict_get_default_set, str_eqb_refl.
    destruct (append_to_last (dict_get_default ea a [] ++ [[]]) cur_token)
      as [spans|] eqn:E; [|discriminate].
    intros H. inversion H. subst ea'. split.
    + intros c N. rewrite !dict_get_default_set.
      apply str_eqb_neq in N. rewrite N. reflexivity.
    + rewrite dict_get_default_set, str_eqb_refl. reflexivity.
Qed.

Lemma add_tokens_spec_none (prev_set : list str) (cur_token : str)
                           (cur_set : list str) :
  add_tokens_spec prev_set cur_token cur_set None = None.
Proof. unfold add_tokens_spec. induction cur_set; simpl; auto. Qed.

Lemma add_tokens_spec_get (prev_set : list str) (cur_token : str)
                          (cur_set : list str) (c : str) :
  NoDup cur_set ->
  forall ea ea',
    add_tokens_spec prev_set cur_token cur_set (Some ea) = Some ea' ->
    if list_in c cur_set then
      append_to_last (if list_in c prev_set then dict_get_default ea c []
                      else dict_get_default ea c [] ++ [[]]) cur_token =
      Some (dict_get_default ea' c [])
    else dict_get_default ea' c [] = dict_get_default ea c [].
Proof.
  induction 1 as [|a cur_set Na N IH]; intros ea ea' E.
  - inversion E. reflexivity.
  - change (add_tokens_spec prev_set cur_token (a :: cur_set) (Some ea))
      with (add_tokens_spec prev_set cur_token cur_set
              (add_token_spec prev_set cur_token ea a)) in E.
    destruct (add_token_spec prev_set cur_token ea a) as [ea1|] eqn:E1;
      [|rewrite add_tokens_spec_none in E; discriminate].
    destruct (add_token_spec_get _ _ _ _ _ E1) as [O A].
    specialize (IH ea1 ea' E). cbn [list_in existsb].
    fold (list_in c cur_set).
    destruct (str_eqb c a) eqn:Eca; cbn [orb].
    + apply str_eqb_eq in Eca. subst a.
      apply list_in_not_In in Na. rewrite Na in IH. rewrite IH. exact A.
    + apply str_eqb_neq in Eca. rewrite (O c Eca) in IH. exact IH.
Qed.

Lemma decode_spec_from_none (rest : list (str * str)) :
  forall prev_set, decode_spec_from prev_set rest None = None.
Proof.
  induction rest as [|[tok label] rest IH]; intros prev_set; [reflexivity|].
  cbn [decode_spec_from]. rewrite add_tokens_spec_none. apply IH.
Qed.

Lemma decode_spec_from_cat (c : str) (rest : list (str * str)) :
  Forall (fun entry => NoDup (categories_of entry)) rest ->
  forall prev_set ea ea',
    decode_spec_from prev_set rest (Some ea) = Some ea' ->
    cat_run (list_in c prev_set) (flagged c rest) (dict_get_default ea c []) =
    Some (dict_get_default ea' c []).
Proof.
  induction 1 as [|[tok label] rest N F IH]; intros prev_set ea ea' E.
  - inversion E. reflexivity.
  - cbn [decode_spec_from] in E.
    destruct (add_tokens_spec prev_set tok (aspects_for_token label) (Some ea))
      as [ea1|] eqn:E1; [|rewrite decode_spec_from_none in E; discriminate].
    pose proof (add_tokens_spec_get prev_set tok _ c N ea ea1 E1) as G.
    specialize (IH _ _ _ E).
    cbn [flagged map cat_run fst]. unfold categories_of at 1. cbn [snd].
    fold (flagged c rest). unfold categories_of in G. cbn [snd] in G.
    revert G IH.
    destruct (list_in c (aspects_for_token label)); intros G IH.
    + rewrite G. exact IH.
    + rewrite <- G. exact IH.
Qed.

(** Where the substring test on the raw previous label answers as membership
    in the previous label set, and no label names a category twice, the
    spans the loop returns for a category are the maximal runs of consecutive
    tokens whose label names it, in the order of the text. *)
Theorem decode_spans_are_runs (result : list (str * str)) :
  agree_chain [] [] result ->
  Forall (fun entry => NoDup (categories_of entry)) result ->
  exists spans_of,
    decode result = Some spans_of /\
    forall c, dict_get_default spans_of c [] = segments (flagged c result).
Proof.
  intros A N. destruct (decode_agrees_with_law result A) as [ea [D S]].
  exists ea. split; [assumption|]. intros c.
  pose proof (decode_spec_from_cat c result N [] [] ea S) as R.
  cbn [list_in existsb dict_get_default dict_get] in R.
  rewrite (proj2 (cat_run_segments (flagged c result))) in R.
  inversion R. reflexivity.
Qed.

Lemma decode_spans_are_runs_witness :
  exists spans_of,
    decode [(u "a", u "Task"); (u "b", u "Task|Method"); (u "c", u "O");
            (u "d", u "Method"); (u "e", u "Method")] = Some spans_of /\
    forall c,
      dict_get_default spans_of c [] =
      segments (flagged c [(u "a", u "Task"); (u "b", u "Task|Method");
                           (u "c", u "O"); (u "d", u "Method");
                           (u "e", u "Method")]).
Proof.
  apply (decode_spans_are_runs
           [(u "a", u "Task"); (u "b", u "Task|Method"); (u "c", u "O");
            (u "d", u "Method"); (u "e", u "Method")]).
  - cbn [agree_chain]. unfold agree. cbn.
    repeat split; intros c H;
      repeat (destruct H as [<-|H]; [reflexivity|]); destruct H.
  - repeat (apply Forall_cons; [cbn; repeat constructor; cbn; intuition discriminate|]).
    apply Forall_nil.
Defined.
